(** * Content extraction of [gui_scraper_v2.py]

    A shallow embedding of [clean_text] and [scrape_dynamic_content]
    (the tree walker / classifier and the orphan-text recovery pass), of
    [generate_filename], [fetch_page], [process_single_url] and of the input
    handling of [ScraperApp.start_scraping_thread], followed by the
    properties of the two passes and of the rest of the script.

    Modelling conventions.
    - A parsed document is a tree of [node]s.  Every node carries the
      value Python's [id()] returns for it; distinct live objects have
      distinct ids, which is the hypothesis [NoDup (ids container)] of the
      theorems that need it.
    - [processed_elements] is a Python [set] of ids: a [gset nat].
    - [Tag.attrs] is a Python [dict]: a [gmap string string].
    - Strings are byte strings; Python's [str.split] whitespace is the
      ASCII part of it (9..13, 28..32).
    - [log_message] appends to a list of [message]s (the queue).  Messages
      are kept symbolic instead of formatted; elapsed time is dropped.
    - Python exceptions: [urljoin] returns [None] for a [ValueError]; any
      other exception of a loop body is given by an oracle ([raises] for
      the [try] block of the first loop, [text_raises] for the body of the
      second loop, [content_raises] for lines 115-116 of the first loop,
      which stand before its [try]), so the theorems hold whatever raises.
    - The tree has tags and strings; a string carries its class (plain
      string, comment, script, ...), which [get_text] looks at. *)

From stdpp Require Import gmap strings list.
From Stdlib Require Import Ascii.
Set Warnings "-register-all,-clear-no-such-hyp".

Local Open Scope string_scope.
Local Open Scope list_scope.

(** ** Strings: [clean_text] *)

Definition isspace (c : ascii) : bool :=
  let n := nat_of_ascii c in
  ((9 <=? n)%nat && (n <=? 13)%nat) || ((28 <=? n)%nat && (n <=? 32)%nat).

Definition isdigit (c : ascii) : bool :=
  let n := nat_of_ascii c in (48 <=? n)%nat && (n <=? 57)%nat.

(** [text.split()]: the maximal runs of non-whitespace characters. *)
Fixpoint split (s : string) : list string :=
  match s with
  | EmptyString => []
  | String c s' =>
      if isspace c then split s'
      else
        match s' with
        | EmptyString => [String c EmptyString]
        | String c' _ =>
            if isspace c' then String c EmptyString :: split s'
            else
              match split s' with
              | w :: ws => String c w :: ws
              | [] => [String c EmptyString]
              end
        end
  end.

(** [sep.join(words)] *)
Fixpoint join (sep : string) (words : list string) : string :=
  match words with
  | [] => ""
  | [w] => w
  | w :: ws => w +:+ sep +:+ join sep ws
  end.

Fixpoint lstrip (s : string) : string :=
  match s with
  | EmptyString => ""
  | String c s' => if isspace c then lstrip s' else s
  end.

Fixpoint rstrip (s : string) : string :=
  match s with
  | EmptyString => ""
  | String c s' =>
      match rstrip s' with
      | EmptyString => if isspace c then "" else String c ""
      | r => String c r
      end
  end.

Definition strip (s : string) : string := rstrip (lstrip s).

(** [' '.join(text.split()).strip()] *)
Definition clean_text (text : string) : string := strip (join " " (split text)).

(** Truth value of a Python string. *)
Definition nonempty (s : string) : bool :=
  match s with EmptyString => false | _ => true end.

(** ** The parsed tree *)

(** The classes of the strings of a tree: [NavigableString] itself
    ([PlainString]) and its subclasses.  The parser makes a [Comment] of a
    comment, and a [Script], [Stylesheet], [TemplateString],
    [RubyTextString] or [RubyParenthesisString] of what stands in a
    [script], [style], [template], [rt] or [rp] tag. *)
Inductive string_class : Type :=
| PlainString
| CData
| Comment
| Declaration
| Doctype
| ProcessingInstruction
| Stylesheet
| Script
| TemplateString
| RubyTextString
| RubyParenthesisString.

#[global] Instance string_class_eq_dec : EqDecision string_class.
Proof. solve_decision. Defined.

Inductive node : Type :=
| NavigableString (i : nat) (s : string) (cls : string_class)
| Tag (i : nat) (name : string) (attrs : gmap string string) (contents : list node).

(** [id(n)] *)
Definition ident (n : node) : nat :=
  match n with NavigableString i _ _ => i | Tag i _ _ _ => i end.

(** [n.name]; a string has no name. *)
Definition name (n : node) : string :=
  match n with NavigableString _ _ _ => "" | Tag _ nm _ _ => nm end.

Definition contents (n : node) : list node :=
  match n with NavigableString _ _ _ => [] | Tag _ _ _ cs => cs end.

Definition is_tag (n : node) : bool :=
  match n with Tag _ _ _ _ => true | _ => false end.

Definition is_string (n : node) : bool :=
  match n with NavigableString _ _ _ => true | _ => false end.

(** The characters of a string node. *)
Definition text (n : node) : string :=
  match n with NavigableString _ s _ => s | _ => "" end.

(** [element.get(key)] *)
Definition get (n : node) (key : string) : option string :=
  match n with NavigableString _ _ _ => None | Tag _ _ a _ => a !! key end.

(** [n.descendants], in document order (pre-order); each node comes with
    its [.parent]. *)
Fixpoint descendants (n : node) : list (node * node) :=
  match n with
  | NavigableString _ _ _ => []
  | Tag _ _ _ cs =>
      (fix go (l : list node) : list (node * node) :=
         match l with
         | [] => []
         | c :: l' => (n, c) :: descendants c ++ go l'
         end) cs
  end.

(** The same list, child by child. *)
Fixpoint walk_children (p : node) (l : list node) : list (node * node) :=
  match l with
  | [] => []
  | c :: l' => (p, c) :: descendants c ++ walk_children p l'
  end.

(** [container.find_all(names)]: the descendant tags whose name is listed. *)
Definition find_all (names : list string) (n : node) : list node :=
  (filter (λ x, is_tag x && bool_decide (name x ∈ names)) (snd <$> descendants n)).

(** [element.find_all(True)]: every descendant tag. *)
Definition find_all_tags (n : node) : list node :=
  filter (λ x, is_tag x = true) (snd <$> descendants n).

(** [container.find_all(string=True)]: every descendant string, with its
    parent. *)
Definition find_all_strings (n : node) : list (node * node) :=
  filter (λ px, is_string px.2 = true) (descendants n).

(** [element.find_all(string=True, recursive=False)]: the strings among the
    children. *)
Definition find_child_strings (n : node) : list node :=
  filter (λ x, is_string x = true) (contents n).

(** [Tag.DEFAULT_INTERESTING_STRING_TYPES] *)
Definition DEFAULT_INTERESTING_STRING_TYPES : list string_class := [PlainString; CData].

(** [tag.interesting_string_types], as the HTML tree builder sets it from
    its string containers. *)
Definition interesting_string_types (tag_name : string) : list string_class :=
  if bool_decide (tag_name = "rt") then [RubyTextString]
  else if bool_decide (tag_name = "rp") then [RubyParenthesisString]
  else if bool_decide (tag_name = "style") then [Stylesheet]
  else if bool_decide (tag_name = "script") then [Script]
  else if bool_decide (tag_name = "template") then [TemplateString]
  else DEFAULT_INTERESTING_STRING_TYPES.

(** [type(n) in types]: a string of one of the classes [types]. *)
Definition has_class (types : list string_class) (n : node) : bool :=
  match n with
  | NavigableString _ _ cls => bool_decide (cls ∈ types)
  | Tag _ _ _ _ => false
  end.

(** [element.get_text()]: the descendant strings whose class is one of the
    interesting string types of the element, joined.  The strings of the
    other classes (the comments, and under a tag that is not their
    container the script, style, template and ruby strings) are left out,
    though [find_all(string=True)] finds them. *)
Definition get_text (n : node) : string :=
  match n with
  | NavigableString _ s cls =>
      if bool_decide (cls ∈ DEFAULT_INTERESTING_STRING_TYPES) then s else ""
  | Tag _ nm _ _ =>
      String.concat ""
        (text <$> filter (λ x, has_class (interesting_string_types nm) x = true)
                    (snd <$> find_all_strings n))
  end.

(** Every id of the tree, the root first. *)
Definition ids (n : node) : list nat := ident n :: (ident <$> (snd <$> descendants n)).

(** ** Records and log messages *)

Inductive data : Type :=
| DText (s : string)
| DLink (text url : string)
| DImage (src alt : string).

Record record := { rtype : string; rdata : data }.

Inductive message : Type :=
| MsgStart
| WarnNoBody
| MsgFound (n : nat)
| WarnHref (href base : string)
| WarnSrc (src base : string)
| ErrElement (tag err : string)
| MsgProcessed (n : nat)
| MsgSearching
| ErrTextSearch (err : string)
| MsgDone (total additional : nat).

Definition PRIMARY_TAGS : list string :=
  ["h1"; "h2"; "h3"; "h4"; "h5"; "h6"; "p"; "li"; "a"; "img"; "th"; "td"].

(** The list of line 183. *)
Definition IGNORED_PARENTS : list string :=
  ["script"; "style"; "noscript"; "meta"; "link"; "title"; "head"; "html"; "body"].

(** ** The extraction state

    [emitted] is [scraped_data] where every record is paired with the id of
    the node it was built from (a ghost annotation: the program only sees
    the second components, see [scraped_data]). *)

Record state := {
  emitted : list (nat * record);
  processed_elements : gset nat;
  processed_count : nat;
  additional_text_count : nat;
  log : list message
}.

Definition scraped_data (st : state) : list record := snd <$> emitted st.

Definition initial (msgs : list message) : state :=
  {| emitted := []; processed_elements := ∅; processed_count := 0;
     additional_text_count := 0; log := msgs |}.

(** [log_message(message_queue, m)] *)
Definition log_message (ms : list message) (st : state) : state :=
  {| emitted := emitted st; processed_elements := processed_elements st;
     processed_count := processed_count st;
     additional_text_count := additional_text_count st;
     log := log st ++ ms |}.

(** [processed_elements.add(i)] *)
Definition mark (i : nat) (st : state) : state :=
  {| emitted := emitted st; processed_elements := processed_elements st ∪ {[i]};
     processed_count := processed_count st;
     additional_text_count := additional_text_count st;
     log := log st |}.

(** [for d in l: processed_elements.add(id(d))] *)
Definition add_all (l : list node) (s : gset nat) : gset nat :=
  foldl (λ acc d, acc ∪ {[ident d]}) s l.

(** The outcome of the [try] block of the first loop. *)
Inductive outcome : Type :=
| Raised (err : string)
| Returned (r : option record) (warnings : list message).

(** How a call ends: at its [return], or with an exception that nothing
    in the function catches; [st] is the state at that time. *)
Inductive completion : Type :=
| Returns (st : state)
| Propagates (err : string) (st : state).

Definition state_of (c : completion) : state :=
  match c with Returns st => st | Propagates _ st => st end.

Definition is_heading (tag_name : string) : bool :=
  match tag_name with
  | String "h" (String d EmptyString) => isdigit d
  | _ => false
  end.

(** [a or b] on strings *)
Definition sor (a b : string) : string := if nonempty a then a else b.

(** [a or b] on the results of [element.get] *)
Definition oor (a b : option string) : option string :=
  match a with
  | Some s => if nonempty s then a else b
  | None => b
  end.

Definition text_record (ty text_content : string) : option record :=
  if nonempty text_content then Some {| rtype := ty; rdata := DText text_content |}
  else None.

(** Stand-ins for the collaborators, for the examples: a resolver that
    keeps absolute references and prefixes the others with the base, a
    resolver that always raises [ValueError], and loop bodies that never
    raise. *)
Definition sample_urljoin (base ref : string) : option string :=
  match ref with
  | String "h" (String "t" (String "t" (String "p" _))) => Some ref
  | _ => Some (base +:+ ref)
  end.

Definition failing_urljoin (base ref : string) : option string := None.

Definition never_raises (n : node) : option string := None.

(** Two states that differ at most in their log. *)
Definition agree (st1 st2 : state) : Prop :=
  emitted st1 = emitted st2
  ∧ processed_elements st1 = processed_elements st2
  ∧ processed_count st1 = processed_count st2
  ∧ additional_text_count st1 = additional_text_count st2.

(** Two calls that end in the same way, in states that differ at most in
    their log. *)
Definition ends_alike (c1 c2 : completion) : Prop :=
  match c1, c2 with
  | Returns st1, Returns st2 => agree st1 st2
  | Propagates err1 st1, Propagates err2 st2 => err1 = err2 ∧ agree st1 st2
  | _, _ => False
  end.

(** The URL a record carries. *)
Definition url_of (r : record) : option string :=
  match rdata r with
  | DLink _ u => Some u
  | DImage u _ => Some u
  | DText _ => None
  end.

(** The kinds of the first pass. *)
Definition classified_kind (ty : string) : Prop :=
  (∃ d, ty = "heading_h" +:+ String d EmptyString)
  ∨ ty ∈ ["paragraph"; "list_item"; "link"; "image"; "table_header"; "table_data"].

Section Scraper.

(** [urllib.parse.urljoin]; [None] is a [ValueError]. *)
Variable urljoin : string → string → option string.
(** The exception, if any, that the [try] block of the first loop raises
    for an element. *)
Variable raises : node → option string.
(** The exception, if any, that the body of the second loop raises for a
    string (after the membership test of line 179). *)
Variable text_raises : node → option string.

Variable base_url : string.

(** [try: urljoin(base_url, ref) except ValueError: ref], with the warning. *)
Definition resolve (warn : string → string → message) (ref : string)
  : string * list message :=
  match urljoin base_url ref with
  | Some u => (u, [])
  | None => (ref, [warn ref base_url])
  end.

(** Lines 115-158 for an element at which lines 115-116 raise nothing: the
    tag name and the text content, then the [try] block (lines 118-158),
    whose exception, if any, [raises] gives.  The exceptions of lines
    115-116 are those of [first_loop] below. *)
Definition classify (element : node) : outcome :=
  let tag_name := name element in
  let text_content := clean_text (get_text element) in
  match raises element with
  | Some err => Raised err
  | None =>
      if is_heading tag_name then
        Returned (text_record ("heading_" +:+ tag_name) text_content) []
      else if bool_decide (tag_name = "p") then
        Returned (text_record "paragraph" text_content) []
      else if bool_decide (tag_name = "li") then
        Returned (text_record "list_item" text_content) []
      else if bool_decide (tag_name = "a") then
        match get element "href" with
        | Some href =>
            if nonempty href then
              let '(absolute_href, w) := resolve WarnHref href in
              let link_text :=
                sor text_content
                  (sor (clean_text (default "" (get element "title"))) absolute_href) in
              Returned (Some {| rtype := "link"; rdata := DLink link_text absolute_href |}) w
            else Returned None []
        | None => Returned None []
        end
      else if bool_decide (tag_name = "img") then
        match oor (get element "data-src") (get element "src") with
        | Some src =>
            if nonempty src then
              let '(absolute_src, w) := resolve WarnSrc src in
              let alt_text := clean_text (default "" (get element "alt")) in
              Returned (Some {| rtype := "image"; rdata := DImage absolute_src alt_text |}) w
            else Returned None []
        | None => Returned None []
        end
      else if bool_decide (tag_name = "th") then
        Returned (text_record "table_header" text_content) []
      else if bool_decide (tag_name = "td") then
        Returned (text_record "table_data" text_content) []
      else Returned None []
  end.

(** Lines 160-168: append the record and consume the element, its
    descendant tags and its child strings. *)
Definition consume (element : node) (r : record) (st : state) : state :=
  {| emitted := emitted st ++ [(ident element, r)];
     processed_elements :=
       add_all (find_child_strings element)
         (add_all (find_all_tags element)
            (processed_elements st ∪ {[ident element]}));
     processed_count := S (processed_count st);
     additional_text_count := additional_text_count st;
     log := log st |}.

(** One iteration of the first loop (lines 110-168). *)
Definition step (st : state) (element : node) : state :=
  if bool_decide (ident element ∈ processed_elements st) then st
  else
    match classify element with
    | Raised err => log_message [ErrElement (name element) err] st
    | Returned None w => log_message w st
    | Returned (Some r) w => consume element r (log_message w st)
    end.

Definition first_pass (elements_found : list node) (st : state) : state :=
  foldl step st elements_found.

(** Lines 193-196. *)
Definition emit_chunk (element : node) (text : string) (st : state) : state :=
  {| emitted := emitted st ++ [(ident element, {| rtype := "text_chunk"; rdata := DText text |})];
     processed_elements := processed_elements st;
     processed_count := processed_count st;
     additional_text_count := S (additional_text_count st);
     log := log st |}.

(** The second loop (lines 177-198) inside its [try]: an exception leaves
    the loop with the state reached so far and logs the error. *)
Fixpoint recover (all_text_nodes : list (node * node)) (st : state) : state :=
  match all_text_nodes with
  | [] => st
  | (parent, element) :: rest =>
      if bool_decide (ident element ∈ processed_elements st) then recover rest st
      else
        match text_raises element with
        | Some err => log_message [ErrTextSearch err] st
        | None =>
            if bool_decide (name parent ∈ IGNORED_PARENTS) then
              recover rest (mark (ident element) st)
            else
              let text := clean_text (text element) in
              let st' :=
                if nonempty text
                   && negb (bool_decide (ident parent ∈ processed_elements st))
                   && negb (bool_decide (name parent ∈ PRIMARY_TAGS))
                then emit_chunk element text st
                else st in
              recover rest (mark (ident element) st')
        end
  end.

(** [soup.body] *)
Definition body (soup : node) : option node := head (find_all ["body"] soup).

(** Lines 99-103. *)
Definition container_of (soup : node) : node := default soup (body soup).

Definition start (soup : node) : state :=
  initial (MsgStart :: match body soup with None => [WarnNoBody] | Some _ => [] end).

(** The state after the first loop, and its message. *)
Definition classified (soup : node) : state :=
  let elements_found := find_all PRIMARY_TAGS (container_of soup) in
  let st := first_pass elements_found
              (log_message [MsgFound (length elements_found)] (start soup)) in
  log_message [MsgProcessed (processed_count st)] st.

(** The state when the function returns. *)
Definition finished (soup : node) : state :=
  let st := recover (find_all_strings (container_of soup))
              (log_message [MsgSearching] (classified soup)) in
  log_message [MsgDone (length (emitted st)) (additional_text_count st)] st.

Definition scrape_dynamic_content (soup : node) : list record :=
  scraped_data (finished soup).

(** *** Exceptions that nothing catches

    In the first loop, lines 111-116 stand before the [try] of line 118:
    the test of the consumed set, [element.name], [element.get_text()] and
    [clean_text].  [content_raises] gives the exception, if any, that
    lines 115-116 raise for an element.  No handler of the function catches
    it: the loop and the call end with it, and nothing is returned.  [step],
    [first_pass], [finished] and [scrape_dynamic_content] above are the
    loop and the call when these lines raise nothing. *)
Variable content_raises : node → option string.

(** The first loop (lines 110-168). *)
Fixpoint first_loop (elements_found : list node) (st : state) : completion :=
  match elements_found with
  | [] => Returns st
  | element :: rest =>
      if bool_decide (ident element ∈ processed_elements st) then first_loop rest st
      else
        match content_raises element with
        | Some err => Propagates err st
        | None => first_loop rest (step st element)
        end
  end.

(** The call of [scrape_dynamic_content]. *)
Definition scrape_dynamic_content_call (soup : node) : completion :=
  let elements_found := find_all PRIMARY_TAGS (container_of soup) in
  match first_loop elements_found
          (log_message [MsgFound (length elements_found)] (start soup)) with
  | Propagates err st => Propagates err st
  | Returns st =>
      let st := log_message [MsgProcessed (processed_count st)] st in
      let st := recover (find_all_strings (container_of soup))
                  (log_message [MsgSearching] st) in
      Returns (log_message [MsgDone (length (emitted st)) (additional_text_count st)] st)
  end.

End Scraper.

(** Every descendant, without its parent. *)
Definition nodes (n : node) : list node := snd <$> descendants n.

(** The identities that an element yielding a record adds to the consumed
    set (lines 162-168). *)
Definition owns (e : node) (i : nat) : Prop :=
  i = ident e ∨ i ∈ ident <$> find_all_tags e ∨ i ∈ ident <$> find_child_strings e.

(** The entry of [emitted] for a record [x.2] built from the node [x.1]. *)
Definition entry (x : node * record) : nat * record := (ident x.1, x.2).

Definition text_chunk (t : node) : record :=
  {| rtype := "text_chunk"; rdata := DText (clean_text (text t)) |}.

(** What the second loop appends for a string, as a function of the
    consumed set at the start of the loop. *)
Definition chunk_of (s : gset nat) (px : node * node) : option (nat * record) :=
  if bool_decide (ident px.2 ∈ s) then None
  else if bool_decide (name px.1 ∈ IGNORED_PARENTS) then None
  else if nonempty (clean_text (text px.2))
          && negb (bool_decide (ident px.1 ∈ s))
          && negb (bool_decide (name px.1 ∈ PRIMARY_TAGS))
  then Some (ident px.2, text_chunk px.2)
  else None.

(** The test of the second loop for a string [t] with parent [p], against
    a consumed set [s]. *)
Definition orphan (s : gset nat) (p t : node) : Prop :=
  clean_text (text t) ≠ "" ∧ (ident t ∉ s) ∧ (ident p ∉ s)
  ∧ (name p ∉ PRIMARY_TAGS) ∧ (name p ∉ IGNORED_PARENTS).

(** A string of whitespace only. *)
Fixpoint all_space (s : string) : bool :=
  match s with
  | EmptyString => true
  | String c s' => isspace c && all_space s'
  end.

(** The text a record carries. *)
Definition record_text (r : record) : option string :=
  match rdata r with
  | DText s => Some s
  | DLink s _ => Some s
  | DImage _ _ => None
  end.

(** The characters of [u] stand in [s], next to each other. *)
Definition occurs_in (u s : string) : Prop := ∃ pre post, s = pre +:+ u +:+ post.

(** An entry of [emitted] represents the string [t] when it is the
    [text_chunk] built from [t], whose payload is the cleaned text of [t],
    or a record of the first pass built from a primary element above [t]
    whose payload is the cleaned text content of that element, where the
    characters of [t] stand in that text content. *)
Definition represents (container t : node) (x : nat * record) : Prop :=
  x = (ident t, text_chunk t)
  ∨ (rtype x.2 ≠ "text_chunk"
     ∧ ∃ e, e ∈ find_all PRIMARY_TAGS container ∧ ident e = x.1 ∧ t ∈ nodes e
            ∧ record_text x.2 = Some (clean_text (get_text e))
            ∧ occurs_in (text t) (get_text e)).

(** Exactly one position of the output represents [t]. *)
Definition represented_once (container t : node) (out : list (nat * record)) : Prop :=
  ∃ k, (∃ x, out !! k = Some x ∧ represents container t x)
       ∧ ∀ k' x', out !! k' = Some x' → represents container t x' → k' = k.

(** ** Sample documents

    [<body><h1>Title</h1><p>Intro <a href="/x">link</a></p>
     <div>Stray text</div></body>] *)
Definition title_text : node := NavigableString 3 "Title" PlainString.
Definition intro_text : node := NavigableString 5 "Intro " PlainString.
Definition link_text_node : node := NavigableString 7 "link" PlainString.
Definition inner_link : node := Tag 6 "a" {["href" := "/x"]} [link_text_node].
Definition heading : node := Tag 2 "h1" ∅ [title_text].
Definition paragraph : node := Tag 4 "p" ∅ [intro_text; inner_link].
Definition stray_text : node := NavigableString 9 "Stray text" PlainString.
Definition stray_div : node := Tag 8 "div" ∅ [stray_text].
Definition sample_body : node := Tag 1 "body" ∅ [heading; paragraph; stray_div].
Definition sample_doc : node := Tag 0 "[document]" ∅ [sample_body].

(** [<body><a>Hello</a></body>]: an anchor without [href]. *)
Definition hello_text : node := NavigableString 3 "Hello" PlainString.
Definition plain_anchor : node := Tag 2 "a" ∅ [hello_text].
Definition anchor_doc : node := Tag 0 "[document]" ∅ [Tag 1 "body" ∅ [plain_anchor]].

(** [<body><p>a<!--c-->b</p></body>] *)
Definition inner_comment : node := NavigableString 4 "c" Comment.
Definition commented_paragraph : node :=
  Tag 2 "p" ∅ [NavigableString 3 "a" PlainString; inner_comment;
               NavigableString 5 "b" PlainString].
Definition commented_doc : node :=
  Tag 0 "[document]" ∅ [Tag 1 "body" ∅ [commented_paragraph]].

(** [<p><b>x</b></p>] *)
Definition deep_text : node := NavigableString 4 "x" PlainString.
Definition bold_paragraph : node := Tag 2 "p" ∅ [Tag 3 "b" ∅ [deep_text]].

(** [<body><div>First</div><div>Second</div></body>] *)
Definition first_text : node := NavigableString 3 "First" PlainString.
Definition second_text : node := NavigableString 5 "Second" PlainString.
Definition first_div : node := Tag 2 "div" ∅ [first_text].
Definition second_div : node := Tag 4 "div" ∅ [second_text].
Definition two_divs_doc : node :=
  Tag 0 "[document]" ∅ [Tag 1 "body" ∅ [first_div; second_div]].

(** A link without text, a link whose [href] is malformed, and the
    attributes of an [img] with an empty [data-src] and [src="pic.png"]. *)
Definition empty_link : node := Tag 12 "a" {["href" := "/y"]} [].
Definition bad_link : node :=
  Tag 20 "a" {["href" := "http://[x"]} [NavigableString 21 "t" PlainString].
Definition lazy_image_attrs : gmap string string :=
  <["data-src" := ""]> {["src" := "pic.png"]}.

(** An oracle that raises for the node with identity [i] only. *)
Definition raises_on (i : nat) (n : node) : option string :=
  if bool_decide (ident n = i) then Some "AttributeError" else None.

(** ** The rest of the script

    [generate_filename], [fetch_page], [process_single_url] and the input
    handling of [ScraperApp.start_scraping_thread].  The libraries are
    parameters: [urlparse] gives the [netloc] and the [path] of a URL
    ([None] when it raises), [requests_get] is [requests.get], [parse_html]
    is [BeautifulSoup(html, "html.parser")], [to_csv] is the conversion to a
    data frame and its export.  Widgets and threads are left out. *)

(** The character class of the pattern of lines 65 and 79: backslash,
    slash, star, question mark, colon, double quote, less, greater, bar. *)
Definition forbidden (c : ascii) : bool :=
  existsb (Ascii.eqb c)
    ["\"; "/"; "*"; "?"; ":"; ascii_of_nat 34; "<"; ">"; "|"]%char.

(** [s] without the prefix [p], if it starts with it. *)
Fixpoint remove_prefix (p s : string) : option string :=
  match p with
  | EmptyString => Some s
  | String a p' =>
      match s with
      | EmptyString => None
      | String b s' => if Ascii.eqb a b then remove_prefix p' s' else None
      end
  end.

(** [s.startswith(p)] *)
Definition startswith (p s : string) : bool :=
  match remove_prefix p s with Some _ => true | None => false end.

(** [re.sub(r'^https?://', '', s)] *)
Definition sub_scheme (s : string) : string :=
  match remove_prefix "https://" s with
  | Some t => t
  | None => default s (remove_prefix "http://" s)
  end.

(** [re.sub(r'^www\.', '', s)] *)
Definition sub_www (s : string) : string := default s (remove_prefix "www." s).

(** [re.sub] of lines 65 and 79: every maximal run of forbidden characters
    becomes one underscore; [in_run] tells that the previous character
    belonged to a run. *)
Fixpoint sub_runs (in_run : bool) (s : string) : string :=
  match s with
  | EmptyString => ""
  | String c s' =>
      if forbidden c then
        if in_run then sub_runs true s' else String "_" (sub_runs true s')
      else String c (sub_runs false s')
  end.

Definition sub_forbidden (s : string) : string := sub_runs false s.

(** [s.replace('/', '_')] *)
Fixpoint replace_slash (s : string) : string :=
  match s with
  | EmptyString => ""
  | String c s' => String (if Ascii.eqb c "/" then "_"%char else c) (replace_slash s')
  end.

Definition underscore_or_dot (c : ascii) : bool := Ascii.eqb c "_" || Ascii.eqb c ".".

Fixpoint lstrip_chars (f : ascii → bool) (s : string) : string :=
  match s with
  | EmptyString => ""
  | String c s' => if f c then lstrip_chars f s' else s
  end.

Fixpoint rstrip_chars (f : ascii → bool) (s : string) : string :=
  match s with
  | EmptyString => ""
  | String c s' =>
      match rstrip_chars f s' with
      | EmptyString => if f c then "" else String c ""
      | r => String c r
      end
  end.

(** [s.strip('_.')] *)
Definition strip_underscores_dots (s : string) : string :=
  rstrip_chars underscore_or_dot (lstrip_chars underscore_or_dot s).

(** [s[:n]] *)
Fixpoint str_take (n : nat) (s : string) : string :=
  match n, s with
  | S n', String c s' => String c (str_take n' s')
  | _, _ => ""
  end.

(** [s.split('//')[-1]] when [//] occurs in [s]: what follows the last
    separator found from left to right. *)
Fixpoint after_last_separator (s : string) : option string :=
  match s with
  | EmptyString => None
  | String c s' =>
      if Ascii.eqb c "/" then
        match s' with
        | String c' rest =>
            if Ascii.eqb c' "/" then Some (default rest (after_last_separator rest))
            else after_last_separator s'
        | EmptyString => None
        end
      else after_last_separator s'
  end.

(** [s.split('//')[-1]] *)
Definition last_piece (s : string) : string := default s (after_last_separator s).

(** [s.splitlines()], for the ASCII line boundaries. *)
Definition is_linebreak (c : ascii) : bool :=
  let n := nat_of_ascii c in
  ((10 <=? n)%nat && (n <=? 13)%nat) || ((28 <=? n)%nat && (n <=? 30)%nat).

Fixpoint splitlines (s : string) : list string :=
  match s with
  | EmptyString => []
  | String c s' =>
      if is_linebreak c then
        "" :: (if Ascii.eqb c (ascii_of_nat 13) then
                 match s' with
                 | String c' rest =>
                     if Ascii.eqb c' (ascii_of_nat 10) then splitlines rest
                     else splitlines s'
                 | EmptyString => splitlines s'
                 end
               else splitlines s')
      else
        match splitlines s' with
        | [] => [String c ""]
        | l :: ls => String c l :: ls
        end
  end.

(** [s.split(',')] *)
Fixpoint split_commas (s : string) : list string :=
  match s with
  | EmptyString => [""]
  | String c s' =>
      if Ascii.eqb c "," then "" :: split_commas s'
      else
        match split_commas s' with
        | [] => [String c ""]
        | l :: ls => String c l :: ls
        end
  end.

(** Line 343:
    [[url.strip() for line in url_text.splitlines()
                  for url in line.split(',') if url.strip()]] *)
Definition urls_of (url_text : string) : list string :=
  line ← splitlines url_text;
  filter (λ url, nonempty url = true) (strip <$> split_commas line).

(** What [start_scraping_thread] decides (lines 337-355): a warning box, or
    the list of URLs given to the worker thread. *)
Inductive start_result : Type :=
| InputRequired
| NoValidUrls
| Started (urls : list string).

Definition start_scraping_thread (input : string) : start_result :=
  let url_text := strip input in
  if nonempty url_text then
    match urls_of url_text with
    | [] => NoValidUrls
    | urls => Started urls
    end
  else InputRequired.

(** The messages of [fetch_page] and [process_single_url]; [Scraping m] is
    a message of [scrape_dynamic_content]. *)
Inductive workflow_message : Type :=
| MsgFetching (url : string)
| WarnNoScheme
| MsgFetched (status_code : nat) (effective_url : string)
| ErrTimeout (url : string)
| ErrFetch (url err : string)
| ErrFetchUnexpected (url err : string)
| MsgProcessing (url : string)
| MsgSkipping (url : string)
| MsgParsing
| MsgParsed
| ErrParse (url err : string)
| Scraping (m : message)
| MsgNoContent
| MsgSaving (filename : string)
| MsgSaved (rows : nat) (filename : string)
| ErrSaving (filename err : string).

(** What [requests.get] does: a response, or one of the exceptions that
    [fetch_page] tells apart. *)
Inductive get_result : Type :=
| Response (status_code : nat) (text url : string)
| Timeout
| RequestException (err : string)
| OtherException (err : string).

Section Workflow.

Variable urlparse : string → option (string * string).
Variable requests_get : string → get_result.
Variable parse_html : string → string + node.
Variable to_csv : string → list record → option string.
Variable urljoin : string → string → option string.
Variable raises : node → option string.
Variable text_raises : node → option string.

(** Lines 57-76, after [urlparse]. *)
Definition filename_of (netloc path : string) : string :=
  let filename := netloc +:+ path in
  let filename := sub_scheme filename in
  let filename := sub_www filename in
  let filename := sub_forbidden filename in
  let filename := replace_slash filename in
  let filename := strip_underscores_dots filename in
  let filename :=
    if (100 <? String.length filename)%nat then str_take 100 filename +:+ "..."
    else filename in
  let filename := if nonempty filename then filename else "scraped_data" in
  filename +:+ ".csv".

Definition generate_filename (url : string) : string :=
  if nonempty url then
    match urlparse url with
    | Some (netloc, path) => filename_of netloc path
    | None => str_take 100 (sub_forbidden (last_piece url)) +:+ ".csv"
    end
  else "scraped_data_invalid_url.csv".

(** The URL that is requested (lines 33-36). *)
Definition with_scheme (url : string) : string :=
  if startswith "http://" url || startswith "https://" url then url
  else "https://" +:+ url.

(** [response.raise_for_status()] raises for the client and server errors. *)
Definition is_http_error (status_code : nat) : bool :=
  (400 <=? status_code)%nat && (status_code <? 600)%nat.

Definition fetch_page (url : string)
  : (option string * string) * list workflow_message :=
  let original_url := url in
  let warning :=
    if startswith "http://" url || startswith "https://" url then []
    else [WarnNoScheme] in
  let messages := MsgFetching url :: warning in
  match requests_get (with_scheme url) with
  | Response status_code text effective_url =>
      if is_http_error status_code then
        ((None, original_url), messages ++ [ErrFetch original_url "HTTPError"])
      else ((Some text, effective_url), messages ++ [MsgFetched status_code effective_url])
  | Timeout => ((None, original_url), messages ++ [ErrTimeout original_url])
  | RequestException err => ((None, original_url), messages ++ [ErrFetch original_url err])
  | OtherException err =>
      ((None, original_url), messages ++ [ErrFetchUnexpected original_url err])
  end.

(** [process_single_url]: the messages, and the file that was written (its
    name and its rows), if any. *)
Definition process_single_url (url : string)
  : list workflow_message * option (string * list record) :=
  let '((html_content, effective_url), fetch_log) := fetch_page url in
  let messages := MsgProcessing url :: fetch_log in
  match html_content with
  | None => (messages ++ [MsgSkipping url], None)
  | Some html =>
      if nonempty html then
        match parse_html html with
        | inl err => (messages ++ [MsgParsing; ErrParse effective_url err], None)
        | inr soup =>
            let st := finished urljoin raises text_raises effective_url soup in
            let scraped_rows := scraped_data st in
            let messages := messages ++ [MsgParsing; MsgParsed] ++ (Scraping <$> log st) in
            match scraped_rows with
            | [] => (messages ++ [MsgNoContent], None)
            | _ =>
                let filename := generate_filename effective_url in
                match to_csv filename scraped_rows with
                | None =>
                    (messages ++ [MsgSaving filename; MsgSaved (length scraped_rows) filename],
                     Some (filename, scraped_rows))
                | Some err => (messages ++ [MsgSaving filename; ErrSaving filename err], None)
                end
            end
        end
      else (messages ++ [MsgSkipping url], None)
  end.

End Workflow.

(** ** Predicates on strings, for the statements *)

(** Every character of [s] satisfies [f]. *)
Fixpoint str_forall (f : ascii → bool) (s : string) : bool :=
  match s with
  | EmptyString => true
  | String c s' => f c && str_forall f s'
  end.

(** Some character of [s] satisfies [f]. *)
Fixpoint str_exists (f : ascii → bool) (s : string) : bool :=
  match s with
  | EmptyString => false
  | String c s' => f c || str_exists f s'
  end.

(** A word: a non-empty string without whitespace. *)
Definition is_word (w : string) : bool :=
  nonempty w && str_forall (λ c, negb (isspace c)) w.

(** A character that may stay in a file name. *)
Definition safe_char (c : ascii) : bool := negb (forbidden c).

(** A character that can stand in a URL of the input box: neither
    whitespace nor a comma. *)
Definition url_char (c : ascii) : bool := negb (isspace c) && negb (Ascii.eqb c ",").

(** The types of the records that [scrape_dynamic_content] builds (lines
    122-154 and 194). *)
Definition RECORD_TYPES : list string :=
  ["heading_h1"; "heading_h2"; "heading_h3"; "heading_h4"; "heading_h5"; "heading_h6";
   "paragraph"; "list_item"; "link"; "image"; "table_header"; "table_data";
   "text_chunk"].

(** The messages that the two loops log: the warnings of [urljoin] and the
    errors of the two [except] clauses. *)
Definition is_loop_message (m : message) : bool :=
  match m with
  | WarnHref _ _ | WarnSrc _ _ | ErrElement _ _ | ErrTextSearch _ => true
  | _ => false
  end.

(** ** A sample site

    Stand-ins for the libraries, for the examples: a server that answers
    every request with a page at the URL that was requested, a server that
    answers with an empty body, a server that times out on a URL without
    scheme, a parser that gives [sample_doc], an export that succeeds, and
    [urlparse] for URLs of the form [scheme://netloc/path]. *)
Definition sample_get (url : string) : get_result := Response 200 "<html>" url.

Definition empty_get (url : string) : get_result := Response 200 "" url.

Definition strict_get (url : string) : get_result :=
  if startswith "http://" url || startswith "https://" url then sample_get url
  else Timeout.

Definition sample_parse (html : string) : string + node := inr sample_doc.

Definition sample_to_csv (filename : string) (rows : list record) : option string := None.

(** [s] cut before its first slash. *)
Fixpoint cut_at_slash (s : string) : string * string :=
  match s with
  | EmptyString => ("", "")
  | String c s' =>
      if Ascii.eqb c "/" then ("", s)
      else let '(netloc, path) := cut_at_slash s' in (String c netloc, path)
  end.

Definition sample_urlparse (url : string) : option (string * string) :=
  Some (cut_at_slash (sub_scheme url)).

(** * Properties *)

(** ** Elementary facts *)

Lemma elem_of_add_all (l : list node) (s : gset nat) (x : nat) :
  x ∈ add_all l s ↔ x ∈ s ∨ x ∈ ident <$> l.
Proof.
  unfold add_all. revert s. induction l as [|d l IH]; intros s; simpl.
  - rewrite elem_of_nil. tauto.
  - rewrite IH, elem_of_cons, elem_of_union, elem_of_singleton. naive_solver.
Qed.

Lemma agree_refl st : agree st st.
Proof. by repeat split. Qed.

Lemma agree_sym st1 st2 : agree st1 st2 → agree st2 st1.
Proof. intros (? & ? & ? & ?). by repeat split. Qed.

Lemma agree_trans st1 st2 st3 : agree st1 st2 → agree st2 st3 → agree st1 st3.
Proof. intros (? & ? & ? & ?) (? & ? & ? & ?). repeat split; congruence. Qed.

Lemma agree_log_message ms st : agree (log_message ms st) st.
Proof. by repeat split. Qed.

Lemma text_record_spec ty s r :
  text_record ty s = Some r → rtype r = ty ∧ rdata r = DText s ∧ s ≠ "".
Proof.
  unfold text_record. destruct s; simpl; [done|].
  intros [= <-]. done.
Qed.

Lemma is_heading_spec tag_name :
  is_heading tag_name = true → ∃ d, tag_name = String "h" (String d EmptyString).
Proof.
  destruct tag_name as [|c [|d [|]]]; simpl; try done.
  all: destruct c as [[] [] [] [] [] [] [] []]; simpl; try done.
  eauto.
Qed.

Lemma classified_kind_not_chunk ty : classified_kind ty → ty ≠ "text_chunk".
Proof.
  intros [[d ->]|H]; [done|].
  repeat (apply elem_of_cons in H as [->|H]; [done|]). by apply elem_of_nil in H.
Qed.

(** *** Elements without contents *)

Lemma get_text_no_contents e : contents e = [] → is_tag e = true → get_text e = "".
Proof. destruct e as [|i n a cs]; simpl; [done|]. by intros ->. Qed.

(** ** The shape of [descendants] *)

Lemma node_induction (P : node → Prop) :
  (∀ i s cls, P (NavigableString i s cls)) →
  (∀ i n a cs, Forall P cs → P (Tag i n a cs)) →
  ∀ x, P x.
Proof.
  intros Hs Ht. fix IH 1. intros [i s cls|i n a cs]; [apply Hs|].
  apply Ht. induction cs as [|c cs IHcs]; constructor; [apply IH|apply IHcs].
Qed.

Lemma descendants_Tag i n a cs :
  descendants (Tag i n a cs) = walk_children (Tag i n a cs) cs.
Proof.
  simpl. generalize (Tag i n a cs). intros p.
  induction cs as [|c cs IH]; simpl; [done|]. by rewrite IH.
Qed.

Lemma descendants_contents p : descendants p = walk_children p (contents p).
Proof. destruct p; [done|apply descendants_Tag]. Qed.

Lemma elem_of_walk_children q x p cs :
  (q, x) ∈ walk_children p cs ↔
  (q = p ∧ x ∈ cs) ∨ ∃ c, c ∈ cs ∧ (q, x) ∈ descendants c.
Proof.
  induction cs as [|c cs IH]; simpl.
  - rewrite elem_of_nil. split; [done|]. intros [[_ H%elem_of_nil]|(c & H%elem_of_nil & _)]; done.
  - rewrite elem_of_cons, elem_of_app, IH. split.
    + intros [[= -> ->]|[H|[[-> H]|(c' & H & H')]]].
      * left. split; [done|left].
      * right. exists c. split; [left|done].
      * left. split; [done|by right].
      * right. exists c'. split; [by right|done].
    + intros [[-> [->|H]%elem_of_cons]|(c' & [->|H]%elem_of_cons & H')]; eauto 10.
Qed.

(** The second component of a pair of [descendants r] is a child of the
    first, which is a tag: [r] itself or one of its descendants. *)
Lemma descendants_parent r p x :
  (p, x) ∈ descendants r →
  x ∈ contents p ∧ is_tag p = true ∧ (p = r ∨ p ∈ nodes r).
Proof.
  revert p x. induction r as [i s|i n a cs IH] using node_induction; intros p x.
  { simpl. by intros ?%elem_of_nil. }
  rewrite descendants_Tag, elem_of_walk_children.
  intros [[-> Hx]|(c & Hc & Hd)]; [by eauto|].
  rewrite Forall_forall in IH. destruct (IH c Hc p x Hd) as (H1 & H2 & H3).
  split; [done|]. split; [done|]. right. unfold nodes.
  rewrite descendants_Tag.
  destruct H3 as [->|H3].
  - apply list_elem_of_fmap. exists (Tag i n a cs, c). split; [done|].
    apply elem_of_walk_children. by left.
  - apply list_elem_of_fmap in H3 as ([q y] & -> & Hqy).
    apply list_elem_of_fmap. exists (q, y). split; [done|].
    apply elem_of_walk_children. right. eauto.
Qed.

Lemma child_in_descendants p x : x ∈ contents p → (p, x) ∈ descendants p.
Proof.
  intros Hx. rewrite descendants_contents. apply elem_of_walk_children. by left.
Qed.

(** A subtree is a contiguous segment of the document order. *)
Lemma descendants_segment r p x :
  (p, x) ∈ descendants r →
  ∃ A B, descendants r = A ++ (p, x) :: descendants x ++ B.
Proof.
  revert p x. induction r as [i s|i n a cs IH] using node_induction; intros p x.
  { simpl. by intros ?%elem_of_nil. }
  rewrite descendants_Tag. generalize (Tag i n a cs). intros q.
  induction cs as [|c cs IHcs]; simpl; [by intros ?%elem_of_nil|].
  apply Forall_cons in IH as [IHc IH].
  rewrite elem_of_cons, elem_of_app. intros [[= -> ->]|[H|H]].
  - by exists [], (walk_children q cs).
  - destruct (IHc _ _ H) as (A & B & ->).
    exists ((q, c) :: A), (B ++ walk_children q cs).
    by repeat (simpl; rewrite <-app_assoc).
  - destruct (IHcs IH H) as (A & B & ->).
    exists ((q, c) :: descendants c ++ A), B.
    by repeat (simpl; rewrite <-app_assoc).
Qed.

Lemma nodes_segment r x :
  x ∈ nodes r → ∃ A B, nodes r = A ++ x :: nodes x ++ B.
Proof.
  unfold nodes. intros ([p y] & -> & H)%list_elem_of_fmap.
  destruct (descendants_segment _ _ _ H) as (A & B & ->).
  exists (snd <$> A), (snd <$> B). by rewrite fmap_app, fmap_cons, fmap_app.
Qed.

Lemma descendants_trans r x q y :
  x ∈ nodes r → (q, y) ∈ descendants x → (q, y) ∈ descendants r.
Proof.
  unfold nodes. intros ([p x'] & -> & H)%list_elem_of_fmap Hy.
  destruct (descendants_segment _ _ _ H) as (A & B & ->).
  rewrite elem_of_app, elem_of_cons, elem_of_app. tauto.
Qed.

Lemma nodes_trans r x y : x ∈ nodes r → y ∈ nodes x → y ∈ nodes r.
Proof.
  intros Hx ([q y'] & -> & H)%list_elem_of_fmap.
  apply list_elem_of_fmap. exists (q, y'). split; [done|].
  by eapply descendants_trans.
Qed.

Lemma child_in_nodes p x : x ∈ contents p → x ∈ nodes p.
Proof.
  intros H. apply list_elem_of_fmap. exists (p, x). split; [done|].
  by apply child_in_descendants.
Qed.

(** ** Unique identities *)

Lemma NoDup_fmap_elem_inj {A B} (f : A → B) (l : list A) x y :
  NoDup (f <$> l) → x ∈ l → y ∈ l → f x = f y → x = y.
Proof.
  induction l as [|z l IH]; [by intros _ ?%elem_of_nil|].
  rewrite fmap_cons, NoDup_cons, !elem_of_cons.
  intros [Hz Hl] [->|Hx] [->|Hy] Hf; [done| | |by apply IH].
  - destruct Hz. rewrite Hf. by apply list_elem_of_fmap_2.
  - destruct Hz. rewrite <-Hf. by apply list_elem_of_fmap_2.
Qed.

Lemma segment_lookup {A} (l1 : list A) x l2 l3 k z :
  l2 !! k = Some z → (l1 ++ x :: l2 ++ l3) !! (length l1 + S k) = Some z.
Proof.
  intros H. rewrite lookup_app_r by lia.
  replace (length l1 + S k - length l1) with (S k) by lia. simpl.
  by apply lookup_app_l_Some.
Qed.

Lemma segment_head_lookup {A} (l1 : list A) x l2 :
  (l1 ++ x :: l2) !! length l1 = Some x.
Proof. by apply list_lookup_middle. Qed.

Lemma ids_NoDup r :
  NoDup (ids r) → NoDup (ident <$> nodes r) ∧ ident r ∉ ident <$> nodes r.
Proof. unfold ids. fold (nodes r). rewrite NoDup_cons. tauto. Qed.

Lemma nodes_NoDup r : NoDup (ident <$> nodes r) → NoDup (nodes r).
Proof. apply NoDup_fmap_1. Qed.

Lemma ident_inj_nodes r x y :
  NoDup (ident <$> nodes r) → x ∈ nodes r → y ∈ nodes r → ident x = ident y → x = y.
Proof. apply NoDup_fmap_elem_inj. Qed.

Lemma ident_inj_descendants r px py :
  NoDup (ident <$> nodes r) → px ∈ descendants r → py ∈ descendants r →
  ident px.2 = ident py.2 → px = py.
Proof.
  unfold nodes. rewrite <-list_fmap_compose. intros Hnd Hx Hy Hf.
  by apply (NoDup_fmap_elem_inj (ident ∘ snd) (descendants r)).
Qed.

(** No node is its own descendant. *)
Lemma not_own_descendant r x :
  NoDup (ident <$> nodes r) → x ∈ nodes r → x ∉ nodes x.
Proof.
  intros Hnd%nodes_NoDup Hx Hxx.
  destruct (nodes_segment _ _ Hx) as (A & B & Heq). rewrite Heq in Hnd.
  apply list_elem_of_lookup in Hxx as [k Hk].
  pose proof (segment_lookup A x (nodes x) B k x Hk) as H1.
  pose proof (segment_head_lookup A x (nodes x ++ B)) as H2.
  pose proof (NoDup_lookup _ _ _ _ Hnd H1 H2). lia.
Qed.

(** A descendant comes after its ancestor in document order. *)
Lemma descendant_after r A y B x :
  NoDup (ident <$> nodes r) → nodes r = A ++ y :: B → x ∈ B → x ∈ nodes r →
  y ∉ nodes x.
Proof.
  intros Hnd%nodes_NoDup Heq Hx Hxr Hy.
  destruct (nodes_segment _ _ Hxr) as (A' & B' & Heq').
  apply list_elem_of_lookup in Hx as [k Hk].
  apply list_elem_of_lookup in Hy as [k' Hk'].
  assert (nodes r !! length A = Some y) as Hy1
    by (rewrite Heq; apply segment_head_lookup).
  assert (nodes r !! (length A + S k) = Some x) as Hx1.
  { rewrite Heq. rewrite <-(app_nil_r B). by apply segment_lookup. }
  assert (nodes r !! length A' = Some x) as Hx2
    by (rewrite Heq'; apply segment_head_lookup).
  assert (nodes r !! (length A' + S k') = Some y) as Hy2
    by (rewrite Heq'; by apply segment_lookup).
  pose proof (NoDup_lookup _ _ _ _ Hnd Hx1 Hx2).
  pose proof (NoDup_lookup _ _ _ _ Hnd Hy1 Hy2). lia.
Qed.

Lemma segment_inside r a b A B A' B' t :
  NoDup (nodes r) →
  nodes r = A ++ a :: nodes a ++ B → nodes r = A' ++ b :: nodes b ++ B' →
  t ∈ nodes a → t ∈ nodes b → length A < length A' → b ∈ nodes a.
Proof.
  intros Hnd Ha Hb Hta Htb Hlt.
  apply list_elem_of_lookup in Hta as [k Hk].
  apply list_elem_of_lookup in Htb as [k' Hk'].
  assert (nodes r !! (length A + S k) = Some t) as H1
    by (rewrite Ha; by apply segment_lookup).
  assert (nodes r !! (length A' + S k') = Some t) as H2
    by (rewrite Hb; by apply segment_lookup).
  pose proof (NoDup_lookup _ _ _ _ Hnd H1 H2) as Hpos.
  apply lookup_lt_Some in Hk.
  destruct (lookup_lt_is_Some_2 (nodes a) (length A' - length A - 1)) as [z Hz]; [lia|].
  assert (nodes r !! (length A + S (length A' - length A - 1)) = Some z) as H3
    by (rewrite Ha; by apply segment_lookup).
  assert (nodes r !! length A' = Some b) as H4
    by (rewrite Hb; apply segment_head_lookup).
  replace (length A + S (length A' - length A - 1)) with (length A') in H3 by lia.
  assert (z = b) as -> by congruence.
  apply list_elem_of_lookup. eauto.
Qed.

(** Two nodes with a common descendant are one above the other. *)
Lemma ancestors_comparable r a b t :
  NoDup (ident <$> nodes r) → a ∈ nodes r → b ∈ nodes r →
  t ∈ nodes a → t ∈ nodes b → a = b ∨ a ∈ nodes b ∨ b ∈ nodes a.
Proof.
  intros Hnd%nodes_NoDup Ha Hb Hta Htb.
  destruct (nodes_segment _ _ Ha) as (A & B & HA).
  destruct (nodes_segment _ _ Hb) as (A' & B' & HB).
  destruct (Nat.lt_trichotomy (length A) (length A')) as [Hlt|[Heq|Hgt]].
  - right. right. by eapply segment_inside.
  - left.
    assert (nodes r !! length A = Some a) as H1
      by (rewrite HA; apply segment_head_lookup).
    assert (nodes r !! length A' = Some b) as H2
      by (rewrite HB; apply segment_head_lookup).
    congruence.
  - right. left. by eapply segment_inside.
Qed.

(** ** What an element that yields a record consumes *)

Lemma consume_processed e r st i :
  i ∈ processed_elements (consume e r st) ↔ i ∈ processed_elements st ∨ owns e i.
Proof.
  unfold owns. simpl. rewrite !elem_of_add_all, elem_of_union, elem_of_singleton. tauto.
Qed.

(** ** The test of the second loop *)

Lemma orphan_mono s s' p t : s ⊆ s' → orphan s' p t → orphan s p t.
Proof. unfold orphan. set_solver. Qed.

Lemma chunk_of_mark s i px :
  ident px.2 ≠ i → ident px.1 ≠ i → chunk_of (s ∪ {[i]}) px = chunk_of s px.
Proof.
  intros H2 H1. unfold chunk_of.
  rewrite (bool_decide_ext (ident px.2 ∈ s ∪ {[i]}) (ident px.2 ∈ s)) by set_solver.
  by rewrite (bool_decide_ext (ident px.1 ∈ s ∪ {[i]}) (ident px.1 ∈ s)) by set_solver.
Qed.

Lemma omap_ext_elem {A B} (f g : A → option B) (l : list A) :
  (∀ x, x ∈ l → f x = g x) → omap f l = omap g l.
Proof.
  induction l as [|x l IH]; intros H; [done|].
  change (omap f (x :: l)) with (match f x with Some y => y :: omap f l | None => omap f l end).
  change (omap g (x :: l)) with (match g x with Some y => y :: omap g l | None => omap g l end).
  rewrite (H x) by left. rewrite IH; [done|]. intros y Hy. apply H. by right.
Qed.

(** ** [clean_text] is empty exactly on whitespace *)

Lemma split_nil s : split s = [] ↔ all_space s = true.
Proof.
  induction s as [|c s IH]; simpl; [done|].
  destruct (isspace c); simpl; [done|].
  split; [|done]. destruct s as [|c' s']; [done|].
  destruct (isspace c'); [done|]. by destruct (split (String c' s')).
Qed.

Lemma split_head s w ws :
  split s = w :: ws → ∃ c w', w = String c w' ∧ isspace c = false.
Proof.
  induction s as [|c s IH]; simpl; [done|].
  destruct (isspace c) eqn:Hc; [done|].
  destruct s as [|c' s']; [intros [= <- _]; eauto|].
  destruct (isspace c'); [intros [= <- _]; eauto|].
  destruct (split (String c' s')); intros [= <- _]; eauto.
Qed.

Lemma rstrip_nonempty c s : isspace c = false → rstrip (String c s) ≠ "".
Proof. intros Hc. simpl. rewrite Hc. by destruct (rstrip s). Qed.

Lemma clean_text_empty s : clean_text s = "" ↔ all_space s = true.
Proof.
  rewrite <-split_nil. unfold clean_text, strip. split.
  - destruct (split s) as [|w ws] eqn:Hs; [done|].
    destruct (split_head _ _ _ Hs) as (c & w' & -> & Hc).
    assert (∃ x, join " " (String c w' :: ws) = String c x) as [x ->].
    { simpl. destruct ws; simpl; eauto. }
    simpl lstrip. rewrite Hc. intros H. by apply rstrip_nonempty in H.
  - by intros ->.
Qed.

Lemma all_space_app s1 s2 : all_space (s1 +:+ s2) = all_space s1 && all_space s2.
Proof.
  induction s1 as [|c s1 IH]; simpl; [done|]. by rewrite IH, andb_assoc.
Qed.

Lemma all_space_concat l x :
  all_space (String.concat "" l) = true → x ∈ l → all_space x = true.
Proof.
  induction l as [|y l IH]; [by intros _ ?%elem_of_nil|].
  assert (String.concat "" (y :: l) = y +:+ String.concat "" l) as ->.
  { simpl. destruct l; [|done]. simpl.
    clear. induction y as [|c y IH]; [done|].
    change (String c y +:+ "") with (String c (y +:+ "")). by f_equal. }
  rewrite all_space_app, andb_true_iff. intros [Hy Hl] [->|Hx]%elem_of_cons; auto.
Qed.

Lemma concat_cons x l : String.concat "" (x :: l) = x +:+ String.concat "" l.
Proof.
  simpl. destruct l; [|done]. simpl.
  clear. induction x as [|c x IH]; [done|].
  change (String c x +:+ "") with (String c (x +:+ "")). by f_equal.
Qed.

Lemma append_assoc (a b c : string) : (a +:+ b) +:+ c = a +:+ (b +:+ c).
Proof.
  induction a as [|x a IH]; [done|].
  change (String x a +:+ b) with (String x (a +:+ b)).
  change (String x (a +:+ b) +:+ c) with (String x ((a +:+ b) +:+ c)).
  change (String x a +:+ (b +:+ c)) with (String x (a +:+ (b +:+ c))).
  by rewrite IH.
Qed.

Lemma concat_occurs x l : x ∈ l → occurs_in x (String.concat "" l).
Proof.
  induction l as [|y l IH]; [by intros ?%elem_of_nil|].
  rewrite concat_cons. intros [->|Hx]%elem_of_cons.
  - by exists "", (String.concat "" l).
  - destruct (IH Hx) as (pre & post & ->). exists (y +:+ pre), post.
    by rewrite append_assoc.
Qed.

Lemma has_class_string types t : has_class types t = true → is_string t = true.
Proof. by destruct t. Qed.

Lemma primary_interesting tag_name :
  tag_name ∈ PRIMARY_TAGS →
  interesting_string_types tag_name = DEFAULT_INTERESTING_STRING_TYPES.
Proof.
  unfold PRIMARY_TAGS. intros H.
  repeat (apply elem_of_cons in H as [->|H]; [done|]). by apply elem_of_nil in H.
Qed.

(** [get_text] has the characters of every string below the element that
    is of an interesting class. *)
Lemma get_text_occurs e t :
  is_tag e = true → t ∈ nodes e →
  has_class (interesting_string_types (name e)) t = true →
  occurs_in (text t) (get_text e).
Proof.
  intros He Ht Hc. destruct e as [|i n a cs]; [done|]. unfold get_text.
  apply concat_occurs, list_elem_of_fmap_2, list_elem_of_filter. split; [done|].
  apply list_elem_of_fmap in Ht as ([p t'] & -> & Hpt).
  apply list_elem_of_fmap. exists (p, t'). split; [done|].
  unfold find_all_strings. apply list_elem_of_filter. split; [|done].
  by eapply has_class_string.
Qed.

Lemma all_space_occurs u s : occurs_in u s → all_space s = true → all_space u = true.
Proof.
  intros (pre & post & ->). rewrite !all_space_app, !andb_true_iff. tauto.
Qed.

(** The text content of an element is non-empty after cleaning as soon as
    one of the strings below it that [get_text] keeps is. *)
Lemma get_text_nonempty e t :
  is_tag e = true → t ∈ nodes e →
  has_class (interesting_string_types (name e)) t = true →
  clean_text (text t) ≠ "" → clean_text (get_text e) ≠ "".
Proof.
  intros He Ht Hc Hne Hempty. apply Hne.
  apply clean_text_empty. apply clean_text_empty in Hempty.
  eapply all_space_occurs; [|exact Hempty]. by apply get_text_occurs.
Qed.

(** ** Searches, parents and ownership *)

Lemma elem_of_find_all names r e :
  e ∈ find_all names r ↔ is_tag e = true ∧ name e ∈ names ∧ e ∈ nodes r.
Proof.
  unfold find_all. rewrite list_elem_of_filter. fold (nodes r).
  destruct (is_tag e); simpl; [|naive_solver].
  rewrite bool_decide_spec. naive_solver.
Qed.

Lemma find_all_sublist names r : find_all names r `sublist_of` nodes r.
Proof. apply sublist_filter. Qed.

Lemma elem_of_find_all_tags e d :
  d ∈ find_all_tags e ↔ is_tag d = true ∧ d ∈ nodes e.
Proof. unfold find_all_tags. by rewrite list_elem_of_filter. Qed.

Lemma elem_of_find_all_strings r p t :
  (p, t) ∈ find_all_strings r ↔ is_string t = true ∧ (p, t) ∈ descendants r.
Proof. unfold find_all_strings. by rewrite list_elem_of_filter. Qed.

(** The parent of a node below [e] is [e] or a tag below [e]: its identity
    is consumed with [e]. *)
Lemma owns_parent r e p d :
  NoDup (ident <$> nodes r) → e ∈ nodes r → (p, d) ∈ descendants r → d ∈ nodes e →
  owns e (ident p) ∧ (p = e ∨ p ∈ nodes e).
Proof.
  intros Hnd He Hpd ([q d'] & -> & Hqd)%list_elem_of_fmap. simpl in *.
  assert ((q, d') = (p, d')) as [= ->].
  { eapply ident_inj_descendants; [done| |done|done]. by eapply descendants_trans. }
  destruct (descendants_parent _ _ _ Hqd) as (_ & Htag & [->|Hp]).
  - split; [by left|by left].
  - split; [|by right]. right. left. apply list_elem_of_fmap_2.
    by apply elem_of_find_all_tags.
Qed.

Lemma chain_not_nested r (Es : list (node * record)) x y :
  NoDup (ident <$> nodes r) →
  (fst <$> Es) `sublist_of` find_all PRIMARY_TAGS r →
  (∀ E1 x E2 y, Es = E1 ++ x :: E2 → y ∈ E2 → ¬ owns x.1 (ident y.1)) →
  x ∈ Es → y ∈ Es → y.1 ∉ nodes x.1.
Proof.
  intros Hnd Hsub Hch Hx Hy Hyx.
  assert (∀ z, z ∈ Es → is_tag z.1 = true ∧ z.1 ∈ nodes r) as Hin.
  { intros z Hz. assert (z.1 ∈ find_all PRIMARY_TAGS r) as Hz'.
    { eapply elem_of_sublist; [|exact Hsub]. by apply list_elem_of_fmap_2. }
    apply elem_of_find_all in Hz'. tauto. }
  destruct (list_elem_of_split _ _ Hx) as (E1 & E2 & ->).
  apply elem_of_app in Hy as [Hy|[->|Hy]%elem_of_cons].
  - (* [y] was visited before [x]: document order *)
    destruct (list_elem_of_split _ _ Hy) as (E3 & E4 & ->).
    assert ((fst <$> ((E3 ++ y :: E4) ++ x :: E2)) `sublist_of` nodes r) as Hs
      by (etrans; [exact Hsub|apply find_all_sublist]).
    rewrite <-app_assoc in Hs. simpl in Hs. rewrite fmap_app, fmap_cons in Hs.
    apply sublist_app_l in Hs as (k1 & k2 & Hk & _ & Hs).
    apply sublist_cons_l in Hs as (k3 & k4 & -> & Hs).
    eapply (descendant_after r (k1 ++ k3) y.1 k4 x.1);
      [done|by rewrite Hk, <-app_assoc| |apply Hin; set_solver|done].
    eapply elem_of_sublist; [|exact Hs]. rewrite fmap_app, fmap_cons. set_solver.
  - (* the same element *)
    eapply not_own_descendant; [exact Hnd| |exact Hyx]. by apply Hin.
  - (* [y] was visited after [x]: it was consumed *)
    eapply Hch; [done|exact Hy|]. right. left. apply list_elem_of_fmap_2.
    apply elem_of_find_all_tags. split; [by apply Hin; set_solver|done].
Qed.

Lemma entry_elem (Es : list (node * record)) i r :
  (i, r) ∈ entry <$> Es ↔ ∃ x, x ∈ Es ∧ ident x.1 = i ∧ x.2 = r.
Proof.
  rewrite list_elem_of_fmap. unfold entry. split.
  - intros (x & [= -> ->] & Hx). eauto.
  - intros (x & Hx & <- & <-). eauto.
Qed.

Lemma strings_NoDup r :
  NoDup (ident <$> nodes r) → NoDup (ident <$> (snd <$> find_all_strings r)).
Proof.
  intros Hnd. eapply sublist_NoDup; [exact Hnd|].
  unfold nodes, find_all_strings. apply fmap_sublist, fmap_sublist, sublist_filter.
Qed.

Lemma string_parent_ident r p t p' t' :
  NoDup (ids r) → (p, t) ∈ find_all_strings r → (p', t') ∈ find_all_strings r →
  ident p ≠ ident t'.
Proof.
  intros [Hnd Hroot]%ids_NoDup [_ Hpt]%elem_of_find_all_strings
    [Hs Hpt']%elem_of_find_all_strings Heq.
  assert (t' ∈ nodes r) as Ht' by (by apply (list_elem_of_fmap_2 snd _ (p', t'))).
  destruct (descendants_parent _ _ _ Hpt) as (_ & Htag & [->|Hp]).
  - apply Hroot. rewrite Heq. by apply list_elem_of_fmap_2.
  - assert (p = t') as -> by (by eapply ident_inj_nodes).
    destruct t'; simpl in *; congruence.
Qed.

Lemma chunk_of_Some s px x :
  chunk_of s px = Some x →
  x = (ident px.2, text_chunk px.2) ∧ orphan s px.1 px.2.
Proof.
  unfold chunk_of, orphan.
  repeat case_bool_decide;
    destruct (nonempty (clean_text (text px.2))) eqn:Hne; simpl; try done.
  intros [= <-]. repeat split; try done. intros Heq. by rewrite Heq in Hne.
Qed.

Lemma chunk_of_orphan s p t :
  orphan s p t → chunk_of s (p, t) = Some (ident t, text_chunk t).
Proof.
  intros (Hne & Ht & Hp & Hprim & Hig). unfold chunk_of. simpl.
  rewrite !bool_decide_eq_false_2 by done.
  by destruct (clean_text (text t)).
Qed.

Lemma omap_chunk_sublist s l :
  (fst <$> omap (chunk_of s) l) `sublist_of` (ident <$> (snd <$> l)).
Proof.
  induction l as [|px l IH]; [done|].
  change (omap (chunk_of s) (px :: l))
    with (match chunk_of s px with
          | Some y => y :: omap (chunk_of s) l
          | None => omap (chunk_of s) l
          end).
  destruct (chunk_of s px) as [y|] eqn:Hy.
  - apply chunk_of_Some in Hy as [-> _]. simpl. by apply sublist_skip.
  - simpl. by apply sublist_cons.
Qed.

(** A consumed parent lies at or below an element that yielded a record. *)
Lemma consumed_parent_below r (Es : list (node * record)) x p t :
  NoDup (ids r) →
  (fst <$> Es) `sublist_of` find_all PRIMARY_TAGS r →
  x ∈ Es → (p, t) ∈ descendants r → owns x.1 (ident p) →
  t ∈ nodes x.1.
Proof.
  intros [Hnd Hroot]%ids_NoDup Hsub Hx Hpt Hown.
  assert (x.1 ∈ nodes r) as Hxr.
  { assert (x.1 ∈ find_all PRIMARY_TAGS r) as Hz
      by (eapply elem_of_sublist; [|exact Hsub]; by apply list_elem_of_fmap_2).
    apply elem_of_find_all in Hz. tauto. }
  destruct (descendants_parent _ _ _ Hpt) as (Hc & Htag & Hp).
  assert (∀ d, d ∈ nodes r → ident p = ident d → p = d) as Hsame.
  { intros d Hd Heq. destruct Hp as [->|Hp].
    - destruct Hroot. rewrite Heq. by apply list_elem_of_fmap_2.
    - by eapply ident_inj_nodes. }
  destruct Hown as [Hown|[Hown|Hown]].
  - rewrite <-(Hsame x.1) by done. by apply child_in_nodes.
  - apply list_elem_of_fmap in Hown as (d & Hid & [_ Hd]%elem_of_find_all_tags).
    assert (p = d) as -> by (apply Hsame; [by eapply nodes_trans|done]).
    eapply nodes_trans; [exact Hd|by apply child_in_nodes].
  - apply list_elem_of_fmap in Hown as (d & Hid & Hd).
    unfold find_child_strings in Hd. apply list_elem_of_filter in Hd as [Hs Hd].
    assert (p = d) as ->.
    { apply Hsame; [|done]. eapply nodes_trans; [exact Hxr|by apply child_in_nodes]. }
    destruct d; simpl in *; congruence.
Qed.

(** A consumed string has a consumed parent. *)
Lemma consumed_string_parent r (Es : list (node * record)) x p t :
  NoDup (ids r) →
  (fst <$> Es) `sublist_of` find_all PRIMARY_TAGS r →
  x ∈ Es → (p, t) ∈ find_all_strings r → owns x.1 (ident t) →
  owns x.1 (ident p).
Proof.
  intros Hids Hsub Hx [Hs Hpt]%elem_of_find_all_strings Hown.
  pose proof Hids as [Hnd Hroot]%ids_NoDup.
  assert (is_tag x.1 = true ∧ x.1 ∈ nodes r) as [Hxt Hxr].
  { assert (x.1 ∈ find_all PRIMARY_TAGS r) as Hz
      by (eapply elem_of_sublist; [|exact Hsub]; by apply list_elem_of_fmap_2).
    apply elem_of_find_all in Hz. tauto. }
  assert (t ∈ nodes r) as Htr by (by apply (list_elem_of_fmap_2 snd _ (p, t))).
  destruct Hown as [Hown|[Hown|Hown]].
  - assert (t = x.1) as -> by (by eapply ident_inj_nodes).
    destruct x.1; simpl in *; congruence.
  - apply list_elem_of_fmap in Hown as (d & Hid & [Hdt Hd]%elem_of_find_all_tags).
    assert (t = d) as -> by (eapply ident_inj_nodes; eauto using nodes_trans).
    destruct d; simpl in *; congruence.
  - apply list_elem_of_fmap in Hown as (d & Hid & Hd).
    unfold find_child_strings in Hd. apply list_elem_of_filter in Hd as [_ Hd].
    assert (t = d) as <-.
    { eapply ident_inj_nodes; eauto. eapply nodes_trans; [exact Hxr|by apply child_in_nodes]. }
    assert ((x.1, t) = (p, t)) as [= <-]; [|by left].
    eapply ident_inj_descendants; [exact Hnd| |exact Hpt|done].
    eapply descendants_trans; [exact Hxr|by apply child_in_descendants].
Qed.

(** * The first pass *)

Section FirstPass.

Variable urljoin : string → string → option string.
Variable raises : node → option string.
Variable base_url : string.

#[local] Abbreviation classify := (classify urljoin raises base_url).
#[local] Abbreviation step := (step urljoin raises base_url).
#[local] Abbreviation first_pass := (first_pass urljoin raises base_url).
#[local] Abbreviation classified := (classified urljoin raises base_url).
#[local] Abbreviation resolve := (resolve urljoin base_url).

Lemma first_pass_app l1 l2 st :
  first_pass (l1 ++ l2) st = first_pass l2 (first_pass l1 st).
Proof. apply foldl_app. Qed.

Lemma first_pass_cons e l st :
  first_pass (e :: l) st = first_pass l (step st e).
Proof. reflexivity. Qed.

Lemma classify_kind e r w :
  classify e = Returned (Some r) w → classified_kind (rtype r).
Proof.
  unfold classify. destruct (raises e); [done|].
  destruct (is_heading (name e)) eqn:Hh.
  { apply is_heading_spec in Hh as [d ->]. intros [= Hr _].
    apply text_record_spec in Hr as (-> & _). left. by exists d. }
  repeat case_bool_decide.
  all: try (intros [= Hr _]; apply text_record_spec in Hr as (-> & _);
            right; set_solver).
  - destruct (get e "href") as [h|]; [|done]. destruct (nonempty h); [|done].
    destruct (resolve WarnHref h). intros [= <- _]. right. set_solver.
  - destruct (oor _ _) as [h|]; [|done]. destruct (nonempty h); [|done].
    destruct (resolve WarnSrc h). intros [= <- _]. right. set_solver.
Qed.

(** What one iteration does, case by case. *)
Lemma step_cases st e :
  (ident e ∈ processed_elements st ∧ step st e = st)
  ∨ ((ident e ∉ processed_elements st) ∧
     ((∃ err, classify e = Raised err
              ∧ step st e = log_message [ErrElement (name e) err] st)
      ∨ (∃ w, classify e = Returned None w ∧ step st e = log_message w st)
      ∨ (∃ r w, classify e = Returned (Some r) w
                ∧ step st e = consume e r (log_message w st)))).
Proof.
  unfold step. case_bool_decide; [by left|right; split; [done|]].
  destruct (classify e) as [err|[r|] w]; eauto 10.
Qed.

(** *** The log never influences the records or the consumed set *)

Lemma step_agree st1 st2 e : agree st1 st2 → agree (step st1 e) (step st2 e).
Proof.
  intros (He & Hp & Hc & Ha). unfold step. rewrite Hp.
  case_bool_decide; [by repeat split|].
  destruct (classify e) as [err|[r|] w]; repeat split; simpl; congruence.
Qed.

Lemma first_pass_agree l st1 st2 :
  agree st1 st2 → agree (first_pass l st1) (first_pass l st2).
Proof.
  revert st1 st2. induction l as [|e l IH]; intros st1 st2 H; [done|].
  rewrite !first_pass_cons. by apply IH, step_agree.
Qed.

Lemma step_log st e : log st `prefix_of` log (step st e).
Proof.
  destruct (step_cases st e) as [[_ ->]|[_ [(err & _ & ->)|[(w & _ & ->)|(r & w & _ & ->)]]]];
    simpl; [done|by apply prefix_app_r..].
Qed.

Lemma first_pass_log l st : log st `prefix_of` log (first_pass l st).
Proof.
  revert st. induction l as [|e l IH]; intros st; [done|].
  rewrite first_pass_cons. etrans; [apply step_log|apply IH].
Qed.

Lemma step_raised st e err :
  raises e = Some err → ident e ∉ processed_elements st →
  step st e = log_message [ErrElement (name e) err] st.
Proof.
  intros Hr Hn. unfold step, classify.
  rewrite bool_decide_eq_false_2 by done. by rewrite Hr.
Qed.

Lemma step_raised_agree st e err : raises e = Some err → agree (step st e) st.
Proof.
  intros Hr. destruct (decide (ident e ∈ processed_elements st)) as [Hin|Hn].
  - unfold step. rewrite bool_decide_eq_true_2 by done. apply agree_refl.
  - rewrite (step_raised _ _ _ Hr Hn). apply agree_log_message.
Qed.

Lemma step_emitted st e : emitted st `prefix_of` emitted (step st e).
Proof.
  destruct (step_cases st e) as [[_ ->]|[_ [(err & _ & ->)|[(w & _ & ->)|(r & w & _ & ->)]]]];
    simpl; [done..|by apply prefix_app_r].
Qed.

Lemma first_pass_emitted l st : emitted st `prefix_of` emitted (first_pass l st).
Proof.
  revert st. induction l as [|e l IH]; intros st; [done|].
  rewrite first_pass_cons. etrans; [apply step_emitted|apply IH].
Qed.

(** *** Links and images *)

(** C6 (link fallback chain): the text of the link record of an [a] with a
    non-empty [href] is the cleaned text content if that is non-empty, else
    the cleaned [title] if that is non-empty, else the resolved URL; with
    no content and no title it is the resolved URL. *)
Theorem link_text_fallback_chain st e href :
  name e = "a" → get e "href" = Some href → href ≠ "" → raises e = None →
  ident e ∉ processed_elements st →
  ∃ link_text,
    step st e =
      consume e {| rtype := "link"; rdata := DLink link_text (resolve WarnHref href).1 |}
        (log_message (resolve WarnHref href).2 st)
    ∧ (clean_text (get_text e) ≠ "" → link_text = clean_text (get_text e))
    ∧ (clean_text (get_text e) = "" → clean_text (default "" (get e "title")) ≠ "" →
       link_text = clean_text (default "" (get e "title")))
    ∧ (clean_text (get_text e) = "" → clean_text (default "" (get e "title")) = "" →
       link_text = (resolve WarnHref href).1)
    ∧ (contents e = [] → get e "title" = None → link_text = (resolve WarnHref href).1).
Proof.
  intros Hname Hhref Hne Hr Hn.
  assert (is_tag e = true) as Htag by (by destruct e).
  unfold step, classify.
  rewrite bool_decide_eq_false_2 by done. rewrite Hr, Hname, Hhref.
  change (is_heading "a") with false. cbv iota.
  rewrite !(bool_decide_eq_false_2 ("a" = "p")), !(bool_decide_eq_false_2 ("a" = "li")) by done.
  rewrite (bool_decide_eq_true_2 ("a" = "a")) by done.
  destruct href as [|c href]; [done|]. simpl nonempty. cbv iota.
  destruct (resolve WarnHref (String c href)) as [url w] eqn:Hres. simpl.
  eexists. split; [reflexivity|].
  repeat split.
  - intros H. unfold sor. by destruct (clean_text (get_text e)).
  - intros -> H. unfold sor. simpl. by destruct (clean_text _).
  - by intros -> ->.
  - intros Hc Ht. rewrite (get_text_no_contents e Hc Htag), Ht. reflexivity.
Qed.

(** C7 (resolution failure is not fatal): when [urljoin] raises
    [ValueError] for the [href] of an [a] or for the source of an [img], the
    record is emitted with the raw reference as its URL, the warning is
    logged, and the loop goes on with the remaining elements. *)
Theorem resolution_failure_not_fatal st e ref rest :
  raises e = None → ident e ∉ processed_elements st →
  urljoin base_url ref = None → ref ≠ "" →
  (name e = "a" ∧ get e "href" = Some ref)
  ∨ (name e = "img" ∧ oor (get e "data-src") (get e "src") = Some ref) →
  ∃ r warning,
    url_of r = Some ref
    ∧ warning ∈ [WarnHref ref base_url; WarnSrc ref base_url]
    ∧ first_pass (e :: rest) st = first_pass rest (consume e r (log_message [warning] st))
    ∧ warning ∈ log (first_pass (e :: rest) st)
    ∧ r ∈ scraped_data (first_pass (e :: rest) st).
Proof.
  intros Hr Hn Hu Hne Hcase.
  assert (∃ r warning, url_of r = Some ref
            ∧ warning ∈ [WarnHref ref base_url; WarnSrc ref base_url]
            ∧ step st e = consume e r (log_message [warning] st)) as (r & m & Hurl & Hm & Hstep).
  { unfold step, classify.
    rewrite bool_decide_eq_false_2 by done. rewrite Hr.
    destruct ref as [|c ref]; [done|].
    destruct Hcase as [[Hname Hget]|[Hname Hget]]; rewrite Hname, Hget.
    - change (is_heading "a") with false. cbv iota.
      rewrite !(bool_decide_eq_false_2 ("a" = "p")), !(bool_decide_eq_false_2 ("a" = "li")) by done.
      rewrite (bool_decide_eq_true_2 ("a" = "a")) by done.
      simpl nonempty. cbv iota. unfold resolve. rewrite Hu.
      eexists _, _. split; [|split; [|reflexivity]]; [reflexivity|set_solver].
    - change (is_heading "img") with false. cbv iota.
      rewrite !(bool_decide_eq_false_2 ("img" = "p")), !(bool_decide_eq_false_2 ("img" = "li")),
        !(bool_decide_eq_false_2 ("img" = "a")) by done.
      rewrite (bool_decide_eq_true_2 ("img" = "img")) by done.
      simpl nonempty. cbv iota. unfold resolve. rewrite Hu.
      eexists _, _. split; [|split; [|reflexivity]]; [reflexivity|set_solver]. }
  exists r, m. rewrite first_pass_cons, Hstep. repeat split; [done..| |].
  - eapply elem_of_prefix; [|apply first_pass_log]. simpl. set_solver.
  - unfold scraped_data. apply list_elem_of_fmap. exists (ident e, r). split; [done|].
    eapply elem_of_prefix; [|apply first_pass_emitted]. simpl. set_solver.
Qed.

Lemma classify_img e :
  name e = "img" → raises e = None →
  classify e =
    match oor (get e "data-src") (get e "src") with
    | Some src =>
        if nonempty src then
          Returned (Some {| rtype := "image";
                            rdata := DImage (resolve WarnSrc src).1
                                       (clean_text (default "" (get e "alt"))) |})
            (resolve WarnSrc src).2
        else Returned None []
    | None => Returned None []
    end.
Proof.
  intros Hname Hr. unfold classify. rewrite Hr, Hname.
  change (is_heading "img") with false. cbv iota.
  rewrite !(bool_decide_eq_false_2 ("img" = "p")), !(bool_decide_eq_false_2 ("img" = "li")),
    !(bool_decide_eq_false_2 ("img" = "a")) by done.
  rewrite (bool_decide_eq_true_2 ("img" = "img")) by done.
  destruct (oor _ _) as [src|]; [|done]. destruct (nonempty src); [|done].
  by destruct (resolve WarnSrc src).
Qed.

(** C10 (empty [data-src]): an [img] whose [data-src] is the empty string is
    classified as the same [img] without [data-src]: the source is [src];
    a non-empty [src] gives an image record with [src] resolved, an absent
    or empty [src] gives no record. *)
Theorem empty_data_src_falls_back_to_src i attrs cs :
  attrs !! "data-src" = Some "" →
  raises (Tag i "img" attrs cs) = None →
  raises (Tag i "img" (delete "data-src" attrs) cs) = None →
  classify (Tag i "img" attrs cs) = classify (Tag i "img" (delete "data-src" attrs) cs)
  ∧ (∀ src, attrs !! "src" = Some src → src ≠ "" →
       classify (Tag i "img" attrs cs) =
         Returned (Some {| rtype := "image";
                           rdata := DImage (resolve WarnSrc src).1
                                      (clean_text (default "" (attrs !! "alt"))) |})
           (resolve WarnSrc src).2)
  ∧ (attrs !! "src" = None ∨ attrs !! "src" = Some "" →
       classify (Tag i "img" attrs cs) = Returned None []).
Proof.
  intros Hd Hr Hr'. rewrite !classify_img by done. simpl get.
  rewrite Hd, lookup_delete_eq, !lookup_delete_ne by done. simpl oor.
  split; [done|]. split.
  - intros src -> Hne. by destruct src.
  - by intros [->| ->].
Qed.

(** *** Order of the output *)

Lemma first_pass_trace l st :
  ∃ E, emitted (first_pass l st) = emitted st ++ E
       ∧ (fst <$> E) `sublist_of` (ident <$> l)
       ∧ Forall (λ x, classified_kind (rtype x.2)) E.
Proof.
  revert st. induction l as [|e l IH]; intros st.
  { exists []. simpl. by rewrite app_nil_r. }
  rewrite first_pass_cons. destruct (IH (step st e)) as (E & -> & Hsub & Hall).
  destruct (step_cases st e) as [[_ ->]|[_ [(err & _ & ->)|[(w & _ & ->)|(r & w & Hc & ->)]]]].
  1-3: exists E; simpl; split; [done|]; split; [by apply sublist_cons|done].
  exists ((ident e, r) :: E). simpl. rewrite <-app_assoc. split; [done|]. split.
  - by apply sublist_skip.
  - constructor; [|done]. simpl. by eapply classify_kind.
Qed.

(** C2, as the code has it: the element that yields a record, every
    descendant tag (at any depth) and the strings among its children are
    added to the consumed set, and nothing else is. *)
Theorem record_consumes_tags_and_child_strings st e r w :
  ident e ∉ processed_elements st → classify e = Returned (Some r) w →
  ∀ i, i ∈ processed_elements (step st e) ↔
       i ∈ processed_elements st ∨ i = ident e
       ∨ i ∈ ident <$> find_all_tags e ∨ i ∈ ident <$> find_child_strings e.
Proof.
  intros Hn Hc i. unfold step. rewrite bool_decide_eq_false_2 by done.
  rewrite Hc. simpl. rewrite !elem_of_add_all, elem_of_union, elem_of_singleton.
  tauto.
Qed.

Lemma first_pass_emitters l st :
  ∃ Es : list (node * record),
    emitted (first_pass l st) = emitted st ++ (entry <$> Es)
    ∧ (fst <$> Es) `sublist_of` l
    ∧ Forall (λ x, ∃ w, classify x.1 = Returned (Some x.2) w) Es
    ∧ (∀ i, i ∈ processed_elements (first_pass l st) ↔
            i ∈ processed_elements st ∨ ∃ x, x ∈ Es ∧ owns x.1 i)
    ∧ (∀ x, x ∈ Es → ident x.1 ∉ processed_elements st)
    ∧ (∀ E1 x E2 y, Es = E1 ++ x :: E2 → y ∈ E2 → ¬ owns x.1 (ident y.1)).
Proof.
  revert st. induction l as [|e l IH]; intros st.
  { exists []. simpl. rewrite app_nil_r. repeat split; try done.
    - by left.
    - intros [?|(x & ?%elem_of_nil & _)]; done.
    - by intros x ?%elem_of_nil.
    - by intros [] ???. }
  rewrite first_pass_cons.
  destruct (IH (step st e)) as (Es & Hem & Hsub & Hcl & Hpr & Hfr & Hch).
  destruct (step_cases st e) as [[_ Hst]|[Hn [(err & _ & Hst)|[(w & _ & Hst)|(r & w & Hc & Hst)]]]].
  1-3: rewrite Hst in *; exists Es; repeat split; try done;
    [by apply sublist_cons|apply Hpr|apply Hpr].
  rewrite Hst in *. exists ((e, r) :: Es). repeat split.
  - rewrite Hem. simpl. by rewrite <-app_assoc.
  - simpl. by apply sublist_skip.
  - constructor; [by exists w|done].
  - rewrite Hpr, consume_processed. simpl.
    intros [[?|?]|(x & Hx & Ho)]; [by left|right; exists (e, r); split; [left|done]|].
    right. exists x. split; [by right|done].
  - rewrite Hpr, consume_processed. simpl.
    intros [?|(x & [->|Hx]%elem_of_cons & Ho)]; [by left; left|by left; right|].
    right. by exists x.
  - intros x [->|Hx]%elem_of_cons; [done|].
    intros Hin. apply (Hfr x Hx). apply consume_processed. by left.
  - intros [|x0 E1] x E2 y Heq Hy; simpl in Heq; simplify_eq.
    + intros Ho. apply (Hfr y Hy). apply consume_processed. by right.
    + by eapply Hch.
Qed.

(** *** The text of a classified record *)

Lemma classify_text e r w :
  classify e = Returned (Some r) w → name e ≠ "img" →
  clean_text (get_text e) ≠ "" →
  record_text r = Some (clean_text (get_text e)).
Proof.
  unfold classify. intros Hc Himg Hne. destruct (raises e); [done|].
  destruct (is_heading (name e)).
  { injection Hc as Hr _. apply text_record_spec in Hr as (_ & Hd & _).
    unfold record_text. by rewrite Hd. }
  repeat case_bool_decide.
  all: try (injection Hc as Hr _; apply text_record_spec in Hr as (_ & Hd & _);
            unfold record_text; by rewrite Hd).
  - destruct (get e "href") as [h|]; [|done]. destruct (nonempty h); [|done].
    destruct (resolve WarnHref h). injection Hc as <- _.
    unfold record_text, sor. simpl. by destruct (clean_text (get_text e)).
  - done.
  - done.
Qed.

End FirstPass.

(** * Exceptions of the first loop *)

Section FirstLoop.

Variable urljoin : string → string → option string.
Variable raises : node → option string.
Variable base_url : string.
Variable content_raises : node → option string.

#[local] Abbreviation step := (step urljoin raises base_url).
#[local] Abbreviation first_pass := (first_pass urljoin raises base_url).
#[local] Abbreviation first_loop := (first_loop urljoin raises base_url content_raises).

Lemma first_loop_app pre post st :
  first_loop (pre ++ post) st =
    match first_loop pre st with
    | Returns st' => first_loop post st'
    | Propagates err st' => Propagates err st'
    end.
Proof.
  revert st. induction pre as [|e pre IH]; intros st; [done|].
  simpl. case_bool_decide; [apply IH|].
  destruct (content_raises e); [done|apply IH].
Qed.

Lemma step_consumed st e : ident e ∈ processed_elements st → step st e = st.
Proof. intros H. unfold step. by rewrite bool_decide_eq_true_2. Qed.

(** A loop that returns has gone through [first_pass]. *)
Lemma first_loop_returns l st st' :
  first_loop l st = Returns st' → st' = first_pass l st.
Proof.
  revert st. induction l as [|e l IH]; intros st.
  { by intros [= <-]. }
  rewrite (first_pass_cons urljoin raises base_url). simpl. case_bool_decide.
  - rewrite step_consumed by done. apply IH.
  - destruct (content_raises e); [done|apply IH].
Qed.

(** A loop ends with an exception exactly at the first element that is
    reached unconsumed and for which lines 115-116 raise. *)
Lemma first_loop_propagates l st err st' :
  first_loop l st = Propagates err st' ↔
  (∃ pre e post, l = pre ++ e :: post ∧ first_loop pre st = Returns st'
                ∧ (ident e ∉ processed_elements st')
                ∧ content_raises e = Some err).
Proof.
  split.
  - revert st. induction l as [|e l IH]; intros st; simpl; [done|].
    case_bool_decide as Hin.
    + intros (pre & e' & post & -> & Hpre & Hn & He)%IH.
      exists (e :: pre), e', post. simpl.
      by rewrite bool_decide_eq_true_2.
    + destruct (content_raises e) as [err'|] eqn:Hc.
      * intros [= <- <-]. by exists [], e, l.
      * intros (pre & e' & post & -> & Hpre & Hn & He)%IH.
        exists (e :: pre), e', post. simpl.
        by rewrite bool_decide_eq_false_2, Hc.
  - intros (pre & e & post & -> & Hpre & Hn & He).
    rewrite first_loop_app, Hpre. simpl.
    by rewrite bool_decide_eq_false_2, He.
Qed.

Lemma first_loop_agree l st1 st2 :
  agree st1 st2 → ends_alike (first_loop l st1) (first_loop l st2).
Proof.
  revert st1 st2. induction l as [|e l IH]; intros st1 st2 Ha; simpl; [done|].
  pose proof Ha as (_ & Hp & _). rewrite Hp.
  case_bool_decide; [by apply IH|].
  destruct (content_raises e); [done|].
  by apply IH, (step_agree urljoin raises base_url).
Qed.

Lemma first_loop_log l st : log st `prefix_of` log (state_of (first_loop l st)).
Proof.
  revert st. induction l as [|e l IH]; intros st; simpl; [done|].
  case_bool_decide; [apply IH|].
  destruct (content_raises e); [done|].
  etrans; [apply (step_log urljoin raises base_url)|apply IH].
Qed.

(** C8 (per-element failure handling), as the code has it: an exception
    raised in the [try] block of an element (lines 118-158), which is
    reached when lines 115-116 have raised nothing for it, is caught there
    and logged, and only that element is skipped: the loop ends as the loop
    over the other elements does, with the same records, consumed set and
    counters. *)
Theorem element_error_skips_only_that_element pre e post err st :
  content_raises e = None →
  raises e = Some err →
  ends_alike (first_loop (pre ++ e :: post) st) (first_loop (pre ++ post) st)
  ∧ (∀ st', first_loop pre st = Returns st' → ident e ∉ processed_elements st' →
       ErrElement (name e) err ∈ log (state_of (first_loop (pre ++ e :: post) st))).
Proof.
  intros Hc Hr. rewrite !first_loop_app.
  destruct (first_loop pre st) as [st1|err1 st1].
  - split.
    + simpl. case_bool_decide; [apply first_loop_agree, agree_refl|].
      rewrite Hc. apply first_loop_agree.
      by apply (step_raised_agree urljoin raises base_url _ _ err).
    + intros st' [= <-] Hn. simpl. rewrite bool_decide_eq_false_2 by done.
      rewrite Hc. eapply elem_of_prefix; [|apply first_loop_log].
      rewrite (step_raised urljoin raises base_url _ _ _ Hr Hn). simpl.
      apply elem_of_app. right. by apply list_elem_of_singleton.
  - split; [by split; [|apply agree_refl]|]. by intros st' [=].
Qed.

End FirstLoop.

(** * The recovery pass *)

Section Recovery.

Variable text_raises : node → option string.

#[local] Abbreviation recover := (recover text_raises).

Lemma recover_trace l st :
  ∃ E, emitted (recover l st) = emitted st ++ E
       ∧ (fst <$> E) `sublist_of` (ident <$> (snd <$> l))
       ∧ Forall (λ x, rtype x.2 = "text_chunk") E.
Proof.
  revert st. induction l as [|[p t] l IH]; intros st.
  { exists []. simpl. by rewrite app_nil_r. }
  simpl. case_bool_decide.
  { destruct (IH st) as (E & -> & Hsub & Hall). exists E.
    split; [done|]. split; [by apply sublist_cons|done]. }
  destruct (text_raises t).
  { exists []. simpl. rewrite app_nil_r. split; [done|]. split; [apply sublist_nil_l|done]. }
  case_bool_decide.
  { destruct (IH (mark (ident t) st)) as (E & -> & Hsub & Hall). exists E.
    split; [done|]. split; [by apply sublist_cons|done]. }
  match goal with |- context [recover l (mark _ ?s)] => destruct (IH (mark (ident t) s)) as (E & -> & Hsub & Hall) end.
  destruct (nonempty (clean_text (text t)) && _ && _).
  - exists ((ident t, {| rtype := "text_chunk"; rdata := DText (clean_text (text t)) |}) :: E).
    simpl. rewrite <-app_assoc. split; [done|]. split; [by apply sublist_skip|].
    by constructor.
  - exists E. split; [done|]. split; [by apply sublist_cons|done].
Qed.

(** *** Failure of the recovery pass *)

Lemma recover_app pre l st :
  (∀ x, x ∈ pre → text_raises x.2 = None) →
  recover (pre ++ l) st = recover l (recover pre st).
Proof.
  revert st. induction pre as [|[p t] pre IH]; intros st Hpre; [done|].
  assert (∀ x, x ∈ pre → text_raises x.2 = None) as Hpre'
    by (intros x Hx; apply Hpre; by right).
  simpl. case_bool_decide; [by apply IH|].
  assert (text_raises t = None) as -> by (apply (Hpre (p, t)); left).
  case_bool_decide; by apply IH.
Qed.

Lemma recover_raised p t l err st :
  text_raises t = Some err → ident t ∉ processed_elements st →
  recover ((p, t) :: l) st = log_message [ErrTextSearch err] st.
Proof.
  intros Hr Hn. simpl. rewrite bool_decide_eq_false_2 by done. by rewrite Hr.
Qed.

(** *** The consumed set during recovery *)

Lemma recover_processed_mono l st :
  processed_elements st ⊆ processed_elements (recover l st).
Proof.
  revert st. induction l as [|[p t] l IH]; intros st; [done|].
  simpl. case_bool_decide; [apply IH|].
  destruct (text_raises t); [done|].
  case_bool_decide.
  - etrans; [|apply IH]. simpl. set_solver.
  - etrans; [|apply IH]. simpl.
    destruct (nonempty (clean_text (text t)) && _ && _); simpl; set_solver.
Qed.

Lemma recover_processed l st i :
  i ∈ processed_elements (recover l st) →
  i ∈ processed_elements st ∨ i ∈ ident <$> (snd <$> l).
Proof.
  revert st. induction l as [|[p t] l IH]; intros st; [by left|].
  simpl. rewrite elem_of_cons. case_bool_decide.
  { intros [?|?]%IH; tauto. }
  destruct (text_raises t); [by left|].
  assert (∀ s, processed_elements s = processed_elements st →
               i ∈ processed_elements (recover l (mark (ident t) s)) →
               i ∈ processed_elements st ∨ i = ident t ∨ i ∈ ident <$> (snd <$> l)) as Hmark.
  { intros s Hs [Hi|?]%IH; [|tauto]. simpl in Hi. rewrite Hs in Hi.
    apply elem_of_union in Hi as [?|?%elem_of_singleton]; tauto. }
  case_bool_decide; [by apply Hmark|].
  apply Hmark. by destruct (nonempty (clean_text (text t)) && _ && _).
Qed.

(** The second loop marks every string it reaches, and nothing else: the
    strings [visited] before the one, if any, at which the body raises. *)
Lemma recover_visited l st :
  ∃ visited rest,
    l = visited ++ rest
    ∧ (∀ i, i ∈ processed_elements (recover l st) ↔
            i ∈ processed_elements st ∨ i ∈ ident <$> (snd <$> visited))
    ∧ (rest = []
       ∨ ∃ p t post err, rest = (p, t) :: post ∧ text_raises t = Some err
                         ∧ ident t ∉ processed_elements (recover l st)).
Proof.
  revert st. induction l as [|[p t] l IH]; intros st.
  { exists [], []. split; [done|]. split; [|by left]. intros i. simpl. set_solver. }
  simpl. case_bool_decide as Hin.
  { destruct (IH st) as (visited & rest & -> & Hiff & Hrest).
    exists ((p, t) :: visited), rest. split; [done|]. split; [|done].
    intros i. rewrite Hiff, !fmap_cons. simpl. set_solver. }
  destruct (text_raises t) as [err|] eqn:Hr.
  { exists [], ((p, t) :: l). split; [done|]. split.
    - intros i. simpl. set_solver.
    - right. exists p, t, l, err. by repeat split. }
  assert (∀ s, processed_elements s = processed_elements st →
            ∃ visited rest,
              (p, t) :: l = visited ++ rest
              ∧ (∀ i, i ∈ processed_elements (recover l (mark (ident t) s)) ↔
                      i ∈ processed_elements st ∨ i ∈ ident <$> (snd <$> visited))
              ∧ (rest = []
                 ∨ ∃ p0 t0 post err, rest = (p0, t0) :: post ∧ text_raises t0 = Some err
                     ∧ ident t0 ∉ processed_elements (recover l (mark (ident t) s))))
    as Hmark.
  { intros s Hs. destruct (IH (mark (ident t) s)) as (visited & rest & -> & Hiff & Hrest).
    exists ((p, t) :: visited), rest. split; [done|]. split; [|done].
    intros i. rewrite Hiff, !fmap_cons. simpl. rewrite Hs. set_solver. }
  case_bool_decide; [by apply Hmark|].
  apply Hmark. by destruct (nonempty (clean_text (text t)) && _ && _).
Qed.

Lemma recover_chunks l st :
  ∃ E, emitted (recover l st) = emitted st ++ E
       ∧ ∀ x, x ∈ E →
           ∃ p t, (p, t) ∈ l ∧ x = (ident t, text_chunk t)
                  ∧ orphan (processed_elements st) p t.
Proof.
  revert st. induction l as [|[p t] l IH]; intros st.
  { exists []. simpl. rewrite app_nil_r. split; [done|]. by intros x ?%elem_of_nil. }
  assert (∀ s (E : list (nat * record)), processed_elements st ⊆ processed_elements s →
            (∀ x, x ∈ E → ∃ p0 t0, (p0, t0) ∈ l ∧ x = (ident t0, text_chunk t0)
                  ∧ orphan (processed_elements s) p0 t0) →
            ∀ x, x ∈ E → ∃ p0 t0, (p0, t0) ∈ (p, t) :: l ∧ x = (ident t0, text_chunk t0)
                  ∧ orphan (processed_elements st) p0 t0) as Hweak.
  { intros s E Hs HE x Hx. destruct (HE x Hx) as (p0 & t0 & H1 & H2 & H3).
    exists p0, t0. split; [by right|]. split; [done|]. by eapply orphan_mono. }
  simpl. case_bool_decide as Hin.
  { destruct (IH st) as (E & -> & HE). exists E. split; [done|]. by apply (Hweak st). }
  destruct (text_raises t).
  { exists []. simpl. rewrite app_nil_r. split; [done|]. by intros x ?%elem_of_nil. }
  case_bool_decide as Hig.
  { destruct (IH (mark (ident t) st)) as (E & -> & HE). exists E. split; [done|].
    apply (Hweak (mark (ident t) st)); [simpl; set_solver|done]. }
  destruct (nonempty (clean_text (text t))) eqn:Hne; simpl.
  2: { destruct (IH (mark (ident t) st)) as (E & -> & HE). exists E. split; [done|].
       apply (Hweak (mark (ident t) st)); [simpl; set_solver|done]. }
  case_bool_decide as Hp; simpl.
  { destruct (IH (mark (ident t) st)) as (E & -> & HE). exists E. split; [done|].
    apply (Hweak (mark (ident t) st)); [simpl; set_solver|done]. }
  case_bool_decide as Hprim; simpl.
  { destruct (IH (mark (ident t) st)) as (E & -> & HE). exists E. split; [done|].
    apply (Hweak (mark (ident t) st)); [simpl; set_solver|done]. }
  destruct (IH (mark (ident t) (emit_chunk t (clean_text (text t)) st))) as (E & -> & HE).
  exists ((ident t, text_chunk t) :: E). simpl. rewrite <-app_assoc. split; [done|].
  intros x [->|Hx]%elem_of_cons.
  - exists p, t. split; [left|]. split; [done|]. repeat split; try done.
    intros Heq. by rewrite Heq in Hne.
  - eapply (Hweak (mark (ident t) (emit_chunk t (clean_text (text t)) st))); [|done..].
    simpl. set_solver.
Qed.

(** Without exceptions and with unique identities, the second loop is a
    filter on the strings, decided by the consumed set it starts from. *)
Lemma recover_static l st :
  (∀ x, text_raises x = None) →
  NoDup (ident <$> (snd <$> l)) →
  (∀ px py, px ∈ l → py ∈ l → ident px.1 ≠ ident py.2) →
  emitted (recover l st) = emitted st ++ omap (chunk_of (processed_elements st)) l.
Proof.
  intros Hnr. revert st. induction l as [|[p t] l IH]; intros st Hnd Hpar.
  { simpl. by rewrite app_nil_r. }
  rewrite !fmap_cons, NoDup_cons in Hnd. destruct Hnd as [Ht Hnd]. simpl in Ht.
  assert (∀ px py, px ∈ l → py ∈ l → ident px.1 ≠ ident py.2) as Hpar'
    by (intros px py ??; apply Hpar; by right).
  assert (∀ s, omap (chunk_of (s ∪ {[ident t]})) l = omap (chunk_of s) l) as Hsame.
  { intros s. apply omap_ext_elem. intros px Hpx. apply chunk_of_mark.
    - intros Heq. apply Ht. rewrite <-Heq.
      apply list_elem_of_fmap_2. by apply list_elem_of_fmap_2.
    - apply (Hpar px (p, t)); [by right|left]. }
  change (omap (chunk_of (processed_elements st)) ((p, t) :: l))
    with (match chunk_of (processed_elements st) (p, t) with
          | Some y => y :: omap (chunk_of (processed_elements st)) l
          | None => omap (chunk_of (processed_elements st)) l
          end).
  simpl recover. unfold chunk_of at 1. simpl fst. simpl snd.
  case_bool_decide as Hin; [by apply IH|].
  rewrite Hnr. case_bool_decide as Hig.
  { rewrite IH by done. simpl. by rewrite Hsame. }
  destruct (nonempty (clean_text (text t)) && _ && _); rewrite IH by done; simpl.
  - rewrite Hsame. by rewrite <-app_assoc.
  - by rewrite Hsame.
Qed.

End Recovery.

(** * The two passes together *)

Section TwoPasses.

Variable urljoin : string → string → option string.
Variable raises : node → option string.
Variable text_raises : node → option string.
Variable base_url : string.

#[local] Abbreviation classify := (classify urljoin raises base_url).
#[local] Abbreviation step := (step urljoin raises base_url).
#[local] Abbreviation first_pass := (first_pass urljoin raises base_url).
#[local] Abbreviation classified := (classified urljoin raises base_url).
#[local] Abbreviation resolve := (resolve urljoin base_url).
#[local] Abbreviation recover := (recover text_raises).
#[local] Abbreviation finished := (finished urljoin raises text_raises base_url).
#[local] Abbreviation scrape_dynamic_content := (scrape_dynamic_content urljoin raises text_raises base_url).
#[local] Abbreviation classify_kind := (classify_kind urljoin raises base_url).
#[local] Abbreviation first_pass_trace := (first_pass_trace urljoin raises base_url).
#[local] Abbreviation first_pass_emitters := (first_pass_emitters urljoin raises base_url).
#[local] Abbreviation classify_text := (classify_text urljoin raises base_url).
#[local] Abbreviation recover_trace := (recover_trace text_raises).
#[local] Abbreviation recover_app := (recover_app text_raises).
#[local] Abbreviation recover_raised := (recover_raised text_raises).
#[local] Abbreviation recover_processed_mono := (recover_processed_mono text_raises).
#[local] Abbreviation recover_processed := (recover_processed text_raises).
#[local] Abbreviation recover_chunks := (recover_chunks text_raises).
#[local] Abbreviation recover_static := (recover_static text_raises).
#[local] Abbreviation recover_visited := (recover_visited text_raises).

(** C5 (output order): the output is the records of the first pass, in the
    order of the primary elements of the document, followed by the
    [text_chunk] records of the recovery pass, in the order of the strings of
    the document; no [text_chunk] precedes a classified record. *)
Theorem output_is_classified_then_recovered soup :
  ∃ first second,
    scrape_dynamic_content soup = (snd <$> first) ++ (snd <$> second)
    ∧ emitted (classified soup) = first
    ∧ emitted (finished soup) = first ++ second
    ∧ (fst <$> first) `sublist_of` (ident <$> find_all PRIMARY_TAGS (container_of soup))
    ∧ (fst <$> second) `sublist_of`
        (ident <$> (snd <$> find_all_strings (container_of soup)))
    ∧ Forall (λ x, rtype x.2 ≠ "text_chunk") first
    ∧ Forall (λ x, rtype x.2 = "text_chunk") second.
Proof.
  unfold scrape_dynamic_content, scraped_data, finished. simpl.
  destruct (recover_trace (find_all_strings (container_of soup))
              (log_message [MsgSearching] (classified soup))) as (E2 & -> & Hs2 & Ha2).
  simpl. unfold classified. simpl.
  destruct (first_pass_trace (find_all PRIMARY_TAGS (container_of soup))
              (log_message [MsgFound (length (find_all PRIMARY_TAGS (container_of soup)))]
                 (start soup))) as (E1 & -> & Hs1 & Ha1).
  simpl. exists E1, E2. rewrite fmap_app. repeat split; try done.
  eapply Forall_impl; [exact Ha1|]. intros x. apply classified_kind_not_chunk.
Qed.

(** C9 (failure of the recovery pass): when the second loop raises at some
    string, the function returns the records of the first pass followed by
    the [text_chunk] records appended before the failure; nothing that was
    appended is lost, and the error is logged. *)
Theorem recovery_error_keeps_records soup pre p t post err :
  find_all_strings (container_of soup) = pre ++ (p, t) :: post →
  (∀ x, x ∈ pre → text_raises x.2 = None) →
  text_raises t = Some err →
  ident t ∉ processed_elements (recover pre (log_message [MsgSearching] (classified soup))) →
  scrape_dynamic_content soup =
    scraped_data (recover pre (log_message [MsgSearching] (classified soup)))
  ∧ scraped_data (classified soup) `prefix_of` scrape_dynamic_content soup
  ∧ ErrTextSearch err ∈ log (finished soup).
Proof.
  intros Hl Hpre Hr Hn.
  unfold scrape_dynamic_content, scraped_data, finished. rewrite Hl.
  rewrite (recover_app _ _ _ Hpre), (recover_raised _ _ _ _ _ Hr Hn). simpl.
  split; [done|]. split.
  - destruct (recover_trace pre (log_message [MsgSearching] (classified soup)))
      as (E & -> & _). simpl. rewrite fmap_app. by apply prefix_app_r.
  - set_solver.
Qed.

(** C4, as the code has it: the recovery pass extends the consumed set.
    With [visited] the strings of the container that the second loop reaches
    (all of them, unless the body raises at the first string of [rest]), the
    set after the pass is the set before it plus exactly the identities of
    the visited strings (lines 184 and 198): nothing is removed, every
    visited string is marked, nothing else is added; so, identities being
    unique, every element is in the set after the pass exactly when it was
    in it before. *)
Theorem recovery_only_adds_visited_strings soup :
  NoDup (ids (container_of soup)) →
  ∃ visited rest,
    find_all_strings (container_of soup) = visited ++ rest
    ∧ (∀ i, i ∈ processed_elements (finished soup) ↔
            i ∈ processed_elements (classified soup)
            ∨ i ∈ ident <$> (snd <$> visited))
    ∧ (rest = []
       ∨ ∃ p t post err, rest = (p, t) :: post ∧ text_raises t = Some err
                         ∧ ident t ∉ processed_elements (finished soup))
    ∧ (∀ e, is_tag e = true →
            e = container_of soup ∨ e ∈ nodes (container_of soup) →
            (ident e ∈ processed_elements (finished soup) ↔
             ident e ∈ processed_elements (classified soup))).
Proof.
  intros [Hnd Hroot]%ids_NoDup. unfold finished. simpl.
  destruct (recover_visited (find_all_strings (container_of soup))
              (log_message [MsgSearching] (classified soup)))
    as (visited & rest & Hl & Hiff & Hrest).
  simpl in Hiff. exists visited, rest. split; [done|]. split; [done|]. split; [done|].
  intros e He Hin. rewrite Hiff. split; [|by left].
  intros [?|Hv]; [done|]. exfalso.
  apply list_elem_of_fmap in Hv as (t & Hid & Ht).
  assert (t ∈ snd <$> find_all_strings (container_of soup)) as Hts
    by (rewrite Hl, fmap_app; set_solver).
  apply list_elem_of_fmap in Hts as ([p t'] & -> & [Hstr Hd]%elem_of_find_all_strings).
  simpl in *.
  assert (t' ∈ nodes (container_of soup)) as Hn
    by (by apply (list_elem_of_fmap_2 snd _ (p, t'))).
  destruct Hin as [->|Hin].
  - apply Hroot. rewrite Hid. by apply list_elem_of_fmap_2.
  - assert (e = t') as -> by (by eapply ident_inj_nodes).
    destruct t'; done.
Qed.

(** What a run produces: the elements [Es] that yielded the records of the
    first pass, and the records [E2] of the recovery pass. *)
Lemma run_summary soup :
  ∃ (Es : list (node * record)) (E2 : list (nat * record)),
    emitted (classified soup) = entry <$> Es
    ∧ emitted (finished soup) = (entry <$> Es) ++ E2
    ∧ (fst <$> Es) `sublist_of` find_all PRIMARY_TAGS (container_of soup)
    ∧ Forall (λ x, ∃ w, classify x.1 = Returned (Some x.2) w) Es
    ∧ (∀ i, i ∈ processed_elements (classified soup) ↔ ∃ x, x ∈ Es ∧ owns x.1 i)
    ∧ (∀ E1 x E3 y, Es = E1 ++ x :: E3 → y ∈ E3 → ¬ owns x.1 (ident y.1))
    ∧ (∀ x, x ∈ E2 →
         ∃ p t, (p, t) ∈ find_all_strings (container_of soup)
                ∧ x = (ident t, text_chunk t)
                ∧ orphan (processed_elements (classified soup)) p t).
Proof.
  unfold finished, classified. simpl.
  destruct (first_pass_emitters (find_all PRIMARY_TAGS (container_of soup))
              (log_message [MsgFound (length (find_all PRIMARY_TAGS (container_of soup)))]
                 (start soup))) as (Es & Hem & Hsub & Hcl & Hpr & _ & Hch).
  match goal with |- context [recover ?l ?s] =>
    destruct (recover_chunks l s) as (E2 & HE2 & Hchunks) end.
  simpl in *. exists Es, E2. rewrite HE2, Hem. repeat split; try done.
  - intros Hi. apply Hpr in Hi as [Hi|Hi]; [|done]. set_solver.
  - intros Hi. apply Hpr. by right.
Qed.

(** C3 (no duplication): when an element yields a record in the first
    pass, no record of the output, classified or recovered, is built from
    one of its descendants. *)
Theorem no_record_from_descendants soup e r d r' :
  NoDup (ids (container_of soup)) →
  e ∈ find_all PRIMARY_TAGS (container_of soup) →
  (ident e, r) ∈ emitted (classified soup) →
  d ∈ nodes e →
  (ident d, r') ∉ emitted (finished soup).
Proof.
  intros [Hnd Hroot]%ids_NoDup He Hrec Hd.
  destruct (run_summary soup) as (Es & E2 & Hcl & Hfin & Hsub & _ & Hpr & Hch & Hchunks).
  rewrite Hcl in Hrec. rewrite Hfin. clear Hcl Hfin.
  apply elem_of_find_all in He as (_ & _ & He).
  assert (∀ z, z ∈ Es → z.1 ∈ nodes (container_of soup)) as Hin.
  { intros z Hz. assert (z.1 ∈ find_all PRIMARY_TAGS (container_of soup)) as Hz'.
    { eapply elem_of_sublist; [|exact Hsub]. by apply list_elem_of_fmap_2. }
    apply elem_of_find_all in Hz'. tauto. }
  apply entry_elem in Hrec as (x & Hx & Hxe & _).
  assert (x.1 = e) as Hxe' by (eapply ident_inj_nodes; eauto).
  assert (d ∈ nodes (container_of soup)) as Hdr by (by eapply nodes_trans).
  intros [Hin1|Hin2]%elem_of_app.
  - apply entry_elem in Hin1 as (y & Hy & Hyd & _).
    assert (y.1 = d) as Hyd' by (eapply ident_inj_nodes; eauto).
    eapply (chain_not_nested _ Es x y); eauto. by rewrite Hxe', Hyd'.
  - destruct (Hchunks _ Hin2) as (p & t & Hpt & [= Hid _] & Horph).
    apply elem_of_find_all_strings in Hpt as [_ Hpt].
    assert (t = d) as ->.
    { eapply ident_inj_nodes; eauto. by apply (list_elem_of_fmap_2 snd _ (p, t)). }
    destruct (owns_parent _ _ _ _ Hnd He Hpt Hd) as [Hown _].
    destruct Horph as (_ & _ & Hp & _). apply Hp. apply Hpr.
    exists x. by rewrite Hxe'.
Qed.

Lemma recovered_static soup :
  NoDup (ids (container_of soup)) → (∀ x, text_raises x = None) →
  emitted (finished soup) =
    emitted (classified soup)
    ++ omap (chunk_of (processed_elements (classified soup)))
         (find_all_strings (container_of soup)).
Proof.
  intros Hids Hnr. unfold finished. simpl.
  rewrite recover_static; [done|done| |].
  - apply strings_NoDup. by apply ids_NoDup.
  - intros [p t] [p' t'] H1 H2. simpl. by eapply string_parent_ident.
Qed.

End TwoPasses.

(** * The call *)

Section Call.

Variable urljoin : string → string → option string.
Variable raises : node → option string.
Variable text_raises : node → option string.
Variable base_url : string.
Variable content_raises : node → option string.

#[local] Abbreviation classified := (classified urljoin raises base_url).
#[local] Abbreviation finished := (finished urljoin raises text_raises base_url).
#[local] Abbreviation scrape_dynamic_content_call :=
  (scrape_dynamic_content_call urljoin raises text_raises base_url content_raises).
#[local] Abbreviation run_summary := (run_summary urljoin raises text_raises base_url).
#[local] Abbreviation recovered_static :=
  (recovered_static urljoin raises text_raises base_url).
#[local] Abbreviation classify_text := (classify_text urljoin raises base_url).
#[local] Abbreviation classify_kind := (classify_kind urljoin raises base_url).

(** A call that returns ends in the state [finished]. *)
Lemma call_returned soup st :
  scrape_dynamic_content_call soup = Returns st → st = finished soup.
Proof.
  unfold scrape_dynamic_content_call.
  destruct (first_loop _ _ _ _ _ _) as [st1|err st1] eqn:Hloop; [|done].
  apply first_loop_returns in Hloop. intros [= <-]. by rewrite Hloop.
Qed.

(** A call returns when lines 115-116 raise for no element. *)
Lemma call_returns soup :
  (∀ e, content_raises e = None) → scrape_dynamic_content_call soup = Returns (finished soup).
Proof.
  intros Hnone. unfold scrape_dynamic_content_call.
  destruct (first_loop _ _ _ _ _ _) as [st1|err st1] eqn:Hloop.
  - apply first_loop_returns in Hloop. by rewrite Hloop.
  - apply first_loop_propagates in Hloop as (pre & e & post & _ & _ & _ & He).
    by rewrite Hnone in He.
Qed.


End Call.


(** * [clean_text] *)

Lemma is_word_cons c w :
  is_word (String c w) = true ↔ isspace c = false ∧ (w = "" ∨ is_word w = true).
Proof.
  unfold is_word. simpl. rewrite andb_true_iff, negb_true_iff.
  destruct w as [|c' w]; simpl; [naive_solver|].
  rewrite andb_true_iff, negb_true_iff. naive_solver.
Qed.

Lemma split_words s : Forall (λ w, is_word w = true) (split s).
Proof.
  induction s as [|c s IH]; simpl; [constructor|].
  destruct (isspace c) eqn:Hc; [done|].
  destruct s as [|c' s'].
  { repeat constructor. apply is_word_cons. auto. }
  destruct (isspace c') eqn:Hc'.
  { constructor; [|done]. apply is_word_cons. auto. }
  destruct (split (String c' s')) as [|w ws].
  { repeat constructor. apply is_word_cons. auto. }
  apply Forall_cons in IH as [Hw Hws]. constructor; [|done].
  apply is_word_cons. auto.
Qed.

Lemma split_word w : is_word w = true → split w = [w].
Proof.
  induction w as [|c w IH]; [done|].
  intros [Hc Hw]%is_word_cons. simpl. rewrite Hc.
  destruct Hw as [->|Hw]; [done|].
  destruct w as [|c' w']; [done|].
  pose proof Hw as [Hc' _]%is_word_cons. rewrite Hc'. by rewrite (IH Hw).
Qed.

Lemma split_word_app w sp rest :
  is_word w = true → isspace sp = true →
  split (w +:+ String sp rest) = w :: split rest.
Proof.
  intros Hw Hsp. induction w as [|c w IH]; [done|].
  apply is_word_cons in Hw as [Hc Hw].
  change (String c w +:+ String sp rest) with (String c (w +:+ String sp rest)).
  destruct Hw as [->|Hw].
  { simpl. by rewrite Hc, Hsp. }
  specialize (IH Hw). destruct w as [|c' w']; [done|].
  pose proof Hw as [Hc' _]%is_word_cons.
  change (String c' w' +:+ String sp rest) with (String c' (w' +:+ String sp rest)) in *.
  simpl. rewrite Hc, Hc'. simpl in IH. rewrite Hc' in IH. by rewrite IH.
Qed.

Lemma split_join ws :
  Forall (λ w, is_word w = true) ws → split (join " " ws) = ws.
Proof.
  induction ws as [|w ws IH]; [done|].
  intros [Hw Hws]%Forall_cons. destruct ws as [|w' ws'].
  { by apply split_word. }
  change (join " " (w :: w' :: ws')) with (w +:+ String " " (join " " (w' :: ws'))).
  rewrite split_word_app by done. by rewrite IH.
Qed.

Lemma rstrip_word_end a w : is_word w = true → rstrip (a +:+ w) = a +:+ w.
Proof.
  intros Hw. induction a as [|c a IH].
  - change ("" +:+ w) with w. induction w as [|c w IHw]; [done|].
    apply is_word_cons in Hw as [Hc Hw]. simpl. destruct Hw as [->|Hw].
    + simpl. by rewrite Hc.
    + rewrite (IHw Hw). by destruct w.
  - change (String c a +:+ w) with (String c (a +:+ w)). simpl. rewrite IH.
    destruct (a +:+ w) eqn:Heq; [|done].
    destruct a as [|c0 a0].
    + change ("" +:+ w) with w in Heq. subst w. discriminate Hw.
    + change (String c0 a0 +:+ w) with (String c0 (a0 +:+ w)) in Heq. discriminate Heq.
Qed.

Lemma join_words_end ws :
  Forall (λ w, is_word w = true) ws → ws ≠ [] →
  ∃ a w, join " " ws = a +:+ w ∧ is_word w = true.
Proof.
  induction ws as [|w ws IH]; [done|]. intros [Hw Hws]%Forall_cons _.
  destruct ws as [|w' ws'].
  { by exists "", w. }
  destruct (IH Hws) as (a & v & Heq & Hv); [done|].
  exists (w +:+ String " " a), v. split; [|done].
  change (join " " (w :: w' :: ws')) with (w +:+ String " " (join " " (w' :: ws'))).
  rewrite Heq. clear. induction w as [|c w IHw]; [done|].
  change (String c w +:+ String " " (a +:+ v)) with (String c (w +:+ String " " (a +:+ v))).
  change ((String c w +:+ String " " a) +:+ v) with (String c ((w +:+ String " " a) +:+ v)).
  by rewrite IHw.
Qed.

Lemma strip_join ws :
  Forall (λ w, is_word w = true) ws → strip (join " " ws) = join " " ws.
Proof.
  intros Hws. destruct ws as [|w ws]; [done|].
  assert (lstrip (join " " (w :: ws)) = join " " (w :: ws)) as Hl.
  { pose proof Hws as [Hw _]%Forall_cons. destruct w as [|c w]; [done|].
    apply is_word_cons in Hw as [Hc _].
    assert (∃ x, join " " (String c w :: ws) = String c x) as [x ->]
      by (simpl; destruct ws; simpl; eauto).
    simpl. by rewrite Hc. }
  unfold strip. rewrite Hl.
  destruct (join_words_end _ Hws) as (a & v & -> & Hv); [done|].
  by apply rstrip_word_end.
Qed.

(** X2: the [strip] of [clean_text] removes nothing, and cleaning keeps
    the words of the text, in their order. *)
Theorem clean_text_keeps_words s :
  clean_text s = join " " (split s) ∧ split (clean_text s) = split s.
Proof.
  assert (clean_text s = join " " (split s)) as H
    by (apply strip_join, split_words).
  split; [done|]. rewrite H. apply split_join, split_words.
Qed.

(** X1: cleaning a cleaned text changes nothing. *)
Theorem clean_text_idempotent s : clean_text (clean_text s) = clean_text s.
Proof.
  unfold clean_text at 1.
  assert (clean_text s = join " " (split s)) as H
    by (apply strip_join, split_words).
  rewrite H at 1. rewrite split_join by apply split_words.
  by rewrite strip_join by apply split_words.
Qed.

(** X3: the cleaned text is empty exactly when the text has only
    whitespace. *)
Theorem clean_text_blank s : clean_text s = "" ↔ all_space s = true.
Proof. apply clean_text_empty. Qed.

(** * [generate_filename] *)

Lemma str_forall_app f a b :
  str_forall f (a +:+ b) = str_forall f a && str_forall f b.
Proof.
  induction a as [|c a IH]; [done|].
  change (String c a +:+ b) with (String c (a +:+ b)). simpl.
  by rewrite IH, andb_assoc.
Qed.

Lemma str_length_app a b :
  String.length (a +:+ b) = (String.length a + String.length b)%nat.
Proof.
  induction a as [|c a IH]; [done|].
  change (String c a +:+ b) with (String c (a +:+ b)). simpl. by rewrite IH.
Qed.

Lemma sub_runs_safe in_run s : str_forall safe_char (sub_runs in_run s) = true.
Proof.
  revert in_run. induction s as [|c s IH]; intros in_run; [done|]. simpl.
  destruct (forbidden c) eqn:Hc.
  - destruct in_run; [apply IH|]. simpl. by rewrite IH.
  - simpl. unfold safe_char at 1. by rewrite Hc, IH.
Qed.

Lemma replace_slash_safe s :
  str_forall safe_char s = true → str_forall safe_char (replace_slash s) = true.
Proof.
  induction s as [|c s IH]; [done|]. simpl.
  intros [Hc Hs]%andb_true_iff. rewrite (IH Hs), andb_true_r.
  by destruct (Ascii.eqb c "/").
Qed.

Lemma lstrip_chars_forall f g s :
  str_forall g s = true → str_forall g (lstrip_chars f s) = true.
Proof.
  induction s as [|c s IH]; [done|]. simpl.
  intros H. pose proof H as [Hc Hs]%andb_true_iff.
  destruct (f c); [by apply IH|done].
Qed.

Lemma rstrip_chars_forall f g s :
  str_forall g s = true → str_forall g (rstrip_chars f s) = true.
Proof.
  induction s as [|c s IH]; [done|]. simpl.
  intros [Hc Hs]%andb_true_iff. specialize (IH Hs).
  destruct (rstrip_chars f s) as [|c' r].
  - destruct (f c); [done|]. simpl. by rewrite Hc.
  - change (str_forall g (String c (String c' r)))
      with (g c && str_forall g (String c' r)). by rewrite Hc, IH.
Qed.

Lemma rstrip_chars_length f s : (String.length (rstrip_chars f s) ≤ String.length s)%nat.
Proof.
  induction s as [|c s IH]; [done|]. simpl.
  destruct (rstrip_chars f s) as [|c' r]; [destruct (f c); simpl; lia|].
  simpl in *. lia.
Qed.

Lemma str_take_forall g n s :
  str_forall g s = true → str_forall g (str_take n s) = true.
Proof.
  revert s. induction n as [|n IH]; intros [|c s]; try done. simpl.
  intros [Hc Hs]%andb_true_iff. by rewrite Hc, IH.
Qed.

Lemma str_take_length n s : (String.length (str_take n s) ≤ n)%nat.
Proof.
  revert s. induction n as [|n IH]; intros [|c s]; simpl; try lia.
  specialize (IH s). lia.
Qed.

Lemma filename_of_stem netloc path :
  ∃ stem, filename_of netloc path = stem +:+ ".csv"
          ∧ stem ≠ ""
          ∧ str_forall safe_char stem = true
          ∧ (String.length stem ≤ 103)%nat.
Proof.
  unfold filename_of.
  set (f := strip_underscores_dots _).
  assert (str_forall safe_char f = true) as Hf.
  { unfold f, strip_underscores_dots.
    apply rstrip_chars_forall, lstrip_chars_forall, replace_slash_safe, sub_runs_safe. }
  eexists. split; [reflexivity|].
  destruct (100 <? String.length f)%nat eqn:Hlen.
  - assert (str_take 100 f +:+ "..." ≠ "") as Hne.
    { destruct f as [|c f']; [done|]. done. }
    replace (nonempty (str_take 100 f +:+ "...")) with true
      by (destruct (str_take 100 f +:+ "..."); done).
    split; [done|]. split.
    + rewrite str_forall_app, str_take_forall by done. done.
    + rewrite str_length_app. pose proof (str_take_length 100 f).
      change (String.length "...") with 3. lia.
  - apply Nat.ltb_ge in Hlen. destruct f as [|c f']; simpl nonempty; cbv iota.
    + repeat split; [done|simpl; lia].
    + repeat split; [done|done|lia].
Qed.

Section Filename.

Variable urlparse : string → option (string * string).

Lemma generate_filename_stem url :
  ∃ stem, generate_filename urlparse url = stem +:+ ".csv"
          ∧ (url = "" ∨ urlparse url ≠ None → stem ≠ "")
          ∧ str_forall safe_char stem = true
          ∧ (String.length stem ≤ 103)%nat.
Proof.
  unfold generate_filename. destruct url as [|c url].
  { exists "scraped_data_invalid_url". repeat split; [done|simpl; lia]. }
  simpl nonempty. cbv iota.
  destruct (urlparse (String c url)) as [[netloc path]|].
  - destruct (filename_of_stem netloc path) as (stem & -> & ? & ? & ?).
    exists stem. by repeat split.
  - eexists. split; [reflexivity|]. split; [by intros [|]|]. split.
    + apply str_take_forall, sub_runs_safe.
    + pose proof (str_take_length 100 (sub_forbidden (last_piece (String c url)))). lia.
Qed.

(** X4: the name always ends with [.csv]; what precedes is non-empty
    whenever the URL is empty or [urlparse] succeeds. *)
Theorem generate_filename_csv url :
  ∃ stem, generate_filename urlparse url = stem +:+ ".csv"
          ∧ (url = "" ∨ urlparse url ≠ None → stem ≠ "").
Proof. destruct (generate_filename_stem url) as (stem & ? & ? & _). eauto. Qed.

(** X5: the name contains none of the characters that the pattern of
    line 65 removes (backslash, slash, star, question mark, colon, double
    quote, less, greater, bar), on every path of the function. *)
Theorem generate_filename_safe url :
  str_forall safe_char (generate_filename urlparse url) = true.
Proof.
  destruct (generate_filename_stem url) as (stem & -> & _ & Hs & _).
  by rewrite str_forall_app, Hs.
Qed.

(** X6: the name has at most 107 characters. *)
Theorem generate_filename_length url :
  (String.length (generate_filename urlparse url) ≤ 107)%nat.
Proof.
  destruct (generate_filename_stem url) as (stem & -> & _ & _ & Hl).
  rewrite str_length_app. simpl. lia.
Qed.

End Filename.

(** * [fetch_page] and [process_single_url] *)

Lemma with_scheme_has_scheme url :
  startswith "http://" (with_scheme url) || startswith "https://" (with_scheme url) = true.
Proof.
  unfold with_scheme.
  destruct (startswith "http://" url || startswith "https://" url) eqn:H; [done|].
  apply orb_true_iff. right. reflexivity.
Qed.

(** X7: [fetch_page] only requests URLs that start with [http://] or
    [https://]: what [requests.get] would do on any other URL does not
    matter. *)
Theorem fetch_page_requests_with_scheme (get1 get2 : string → get_result) url :
  (∀ u, startswith "http://" u || startswith "https://" u = true → get1 u = get2 u) →
  fetch_page get1 url = fetch_page get2 url.
Proof.
  intros H. unfold fetch_page. by rewrite (H _ (with_scheme_has_scheme url)).
Qed.

Section WorkflowFacts.

Variable urlparse : string → option (string * string).
Variable requests_get : string → get_result.
Variable parse_html : string → string + node.
Variable to_csv : string → list record → option string.
Variable urljoin : string → string → option string.
Variable raises : node → option string.
Variable text_raises : node → option string.

(** X8: content is returned only for a response whose status is not a
    client or server error, with the URL of that response; every failure
    returns no content and the URL as it was given, without the scheme that
    was added for the request. *)
Theorem fetch_page_result url :
  (∀ text effective_url,
     (fetch_page requests_get url).1 = (Some text, effective_url) →
     ∃ status_code,
       requests_get (with_scheme url) = Response status_code text effective_url
       ∧ is_http_error status_code = false)
  ∧ ((fetch_page requests_get url).1.1 = None →
     (fetch_page requests_get url).1.2 = url).
Proof.
  unfold fetch_page.
  destruct (requests_get (with_scheme url)) as [status text eff| | |]; simpl.
  - destruct (is_http_error status) eqn:Hs; simpl; split; try done.
    intros text' eff' [= <- <-]. eauto.
  - by split.
  - by split.
  - by split.
Qed.

(** X9: a file is written only after a successful request with a
    non-empty body, a successful parse, at least one scraped record and a
    successful export; its name is [generate_filename] of the URL of the
    response (after redirects), which is also the base URL of the
    extraction; its rows are all the scraped records. *)
Theorem process_single_url_saved url messages filename rows :
  process_single_url urlparse requests_get parse_html to_csv urljoin raises text_raises url
  = (messages, Some (filename, rows)) →
  ∃ status_code html effective_url soup,
    requests_get (with_scheme url) = Response status_code html effective_url
    ∧ is_http_error status_code = false
    ∧ html ≠ ""
    ∧ parse_html html = inr soup
    ∧ rows = scrape_dynamic_content urljoin raises text_raises effective_url soup
    ∧ rows ≠ []
    ∧ filename = generate_filename urlparse effective_url
    ∧ to_csv filename rows = None
    ∧ str_forall safe_char filename = true.
Proof.
  unfold process_single_url, fetch_page.
  destruct (requests_get (with_scheme url)) as [status html eff| | |] eqn:Hget;
    [|done..].
  destruct (is_http_error status) eqn:Hstatus; [done|].
  destruct html as [|c html]; [done|]. simpl nonempty. cbv iota.
  destruct (parse_html (String c html)) as [err|soup] eqn:Hparse; [done|].
  fold (scrape_dynamic_content urljoin raises text_raises eff soup).
  destruct (scrape_dynamic_content urljoin raises text_raises eff soup)
    as [|r rs] eqn:Hrows; [done|].
  destruct (to_csv (generate_filename urlparse eff) (r :: rs)) as [err|] eqn:Hcsv; [done|].
  intros [= _ <- <-]. exists status, (String c html), eff, soup.
  repeat split; try done.
  destruct (generate_filename_stem urlparse eff) as (stem & -> & _ & Hs & _).
  by rewrite str_forall_app, Hs.
Qed.

(** X10: a response with an empty body is handled as a failed request:
    nothing is written, the URL is reported as skipped, and neither the
    parser nor the export has any influence. *)
Theorem process_single_url_empty_body url status_code effective_url :
  requests_get (with_scheme url) = Response status_code "" effective_url →
  (process_single_url urlparse requests_get parse_html to_csv urljoin raises text_raises url).2
  = None
  ∧ MsgSkipping url
    ∈ (process_single_url urlparse requests_get parse_html to_csv urljoin raises
         text_raises url).1
  ∧ ∀ parse_html' to_csv',
      process_single_url urlparse requests_get parse_html' to_csv' urljoin raises
        text_raises url
      = process_single_url urlparse requests_get parse_html to_csv urljoin raises
          text_raises url.
Proof.
  intros Hget. unfold process_single_url, fetch_page. rewrite Hget.
  destruct (is_http_error status_code); simpl; repeat split; try done; set_solver.
Qed.

End WorkflowFacts.

(** * The URLs of the input box *)

Lemma string_induction2 (P : string → Prop) :
  P "" → (∀ c, P (String c "")) →
  (∀ c c' s, P s → P (String c' s) → P (String c (String c' s))) →
  ∀ s, P s.
Proof.
  intros H0 H1 H2 s. enough (P s ∧ ∀ c, P (String c s)) by tauto.
  induction s as [|c s [IH1 IH2]]; [by split|]. split; [apply IH2|].
  intros c0. by apply H2.
Qed.

Lemma str_forall_impl (f g : ascii → bool) s :
  (∀ c, f c = true → g c = true) → str_forall f s = true → str_forall g s = true.
Proof.
  intros H. induction s as [|c s IH]; [done|]. simpl.
  intros [Hc Hs]%andb_true_iff. by rewrite (H c Hc), IH.
Qed.

Lemma linebreak_isspace c : is_linebreak c = true → isspace c = true.
Proof.
  unfold is_linebreak, isspace. generalize (nat_of_ascii c). intros n.
  rewrite !orb_true_iff, !andb_true_iff, !Nat.leb_le. lia.
Qed.

Lemma lstrip_blank s : lstrip s = "" ↔ all_space s = true.
Proof.
  induction s as [|c s IH]; [done|]. simpl. by destruct (isspace c).
Qed.

Lemma lstrip_head s :
  lstrip s = "" ∨ ∃ c r, lstrip s = String c r ∧ isspace c = false.
Proof.
  induction s as [|c s IH]; [by left|]. simpl.
  destruct (isspace c) eqn:Hc; [done|]. right. eauto.
Qed.

Lemma rstrip_head c r :
  isspace c = false → ∃ r', rstrip (String c r) = String c r'.
Proof. intros Hc. simpl. rewrite Hc. destruct (rstrip r); eauto. Qed.

Lemma rstrip_idempotent s : rstrip (rstrip s) = rstrip s.
Proof.
  induction s as [|c s IH]; [done|]. simpl.
  destruct (rstrip s) as [|c' r] eqn:Hr.
  - destruct (isspace c) eqn:Hc; [done|]. simpl. by rewrite Hc.
  - change (rstrip (String c (String c' r)))
      with (match rstrip (String c' r) with
            | EmptyString => if isspace c then "" else String c ""
            | x => String c x
            end).
    by rewrite IH.
Qed.

Lemma strip_head s :
  strip s = "" ∨ ∃ c r, strip s = String c r ∧ isspace c = false.
Proof.
  unfold strip. destruct (lstrip_head s) as [->|(c & r & -> & Hc)]; [by left|].
  right. destruct (rstrip_head c r Hc) as [r' ->]. eauto.
Qed.

Lemma strip_idempotent s : strip (strip s) = strip s.
Proof.
  destruct (strip_head s) as [->|(c & r & Heq & Hc)]; [done|].
  unfold strip at 1. rewrite Heq. simpl lstrip. rewrite Hc. rewrite <-Heq.
  unfold strip. apply rstrip_idempotent.
Qed.

Lemma strip_blank s : strip s = "" ↔ all_space s = true.
Proof.
  rewrite <-lstrip_blank. unfold strip. split; [|by intros ->].
  destruct (lstrip_head s) as [->|(c & r & -> & Hc)]; [done|].
  intros H. by apply rstrip_nonempty in H.
Qed.

Lemma lstrip_forall g s : str_forall g s = true → str_forall g (lstrip s) = true.
Proof.
  induction s as [|c s IH]; [done|]. simpl. intros H.
  pose proof H as [_ Hs]%andb_true_iff. destruct (isspace c); [by apply IH|done].
Qed.

Lemma rstrip_forall g s : str_forall g s = true → str_forall g (rstrip s) = true.
Proof.
  induction s as [|c s IH]; [done|]. simpl.
  intros [Hc Hs]%andb_true_iff. specialize (IH Hs).
  destruct (rstrip s) as [|c' r].
  - destruct (isspace c); [done|]. simpl. by rewrite Hc.
  - change (str_forall g (String c (String c' r)))
      with (g c && str_forall g (String c' r)). by rewrite Hc, IH.
Qed.

Lemma strip_forall g s : str_forall g s = true → str_forall g (strip s) = true.
Proof. intros H. by apply rstrip_forall, lstrip_forall. Qed.

Lemma lstrip_exists f s :
  (∀ c, f c = true → isspace c = false) →
  str_exists f (lstrip s) = str_exists f s.
Proof.
  intros Hf. induction s as [|c s IH]; [done|]. simpl.
  destruct (isspace c) eqn:Hc; [|done]. rewrite IH.
  destruct (f c) eqn:Hfc; [|done]. apply Hf in Hfc. congruence.
Qed.

Lemma rstrip_exists f s :
  (∀ c, f c = true → isspace c = false) →
  str_exists f (rstrip s) = str_exists f s.
Proof.
  intros Hf. induction s as [|c s IH]; [done|]. simpl.
  destruct (rstrip s) as [|c' r].
  - rewrite <-IH. simpl. destruct (isspace c) eqn:Hc; [|done]. simpl.
    destruct (f c) eqn:Hfc; [|done]. apply Hf in Hfc. congruence.
  - change (str_exists f (String c (String c' r)))
      with (f c || str_exists f (String c' r)). by rewrite IH.
Qed.

Lemma strip_exists f s :
  (∀ c, f c = true → isspace c = false) →
  str_exists f (strip s) = str_exists f s.
Proof. intros Hf. unfold strip. by rewrite rstrip_exists, lstrip_exists. Qed.

Lemma str_exists_nonempty f s : str_exists f s = true → s ≠ "".
Proof. by destruct s. Qed.

Lemma splitlines_cons c s :
  is_linebreak c = false →
  splitlines (String c s) =
    match splitlines s with
    | [] => [String c ""]
    | l :: ls => String c l :: ls
    end.
Proof. intros H. simpl. by rewrite H. Qed.

Lemma splitlines_exists f s :
  (∀ c, f c = true → isspace c = false) →
  existsb (str_exists f) (splitlines s) = str_exists f s.
Proof.
  intros Hf.
  assert (∀ c, is_linebreak c = true → f c = false) as Hlb.
  { intros c Hc%linebreak_isspace. destruct (f c) eqn:Hfc; [|done].
    apply Hf in Hfc. congruence. }
  induction s as [|c|c c' s IH1 IH2] using string_induction2; [done| |].
  - simpl. destruct (is_linebreak c) eqn:Hc.
    + rewrite (Hlb c Hc). by destruct (Ascii.eqb c (ascii_of_nat 13)).
    + simpl. by rewrite orb_false_r.
  - destruct (is_linebreak c) eqn:Hc.
    + change (str_exists f (String c (String c' s)))
        with (f c || str_exists f (String c' s)).
      rewrite (Hlb c Hc). simpl orb.
      change (splitlines (String c (String c' s)))
        with (if is_linebreak c then
                "" :: (if Ascii.eqb c (ascii_of_nat 13) then
                         if Ascii.eqb c' (ascii_of_nat 10) then splitlines s
                         else splitlines (String c' s)
                       else splitlines (String c' s))
              else match splitlines (String c' s) with
                   | [] => [String c ""]
                   | l :: ls => String c l :: ls
                   end).
      rewrite Hc. simpl existsb.
      destruct (Ascii.eqb c (ascii_of_nat 13)); [|exact IH2].
      destruct (Ascii.eqb c' (ascii_of_nat 10)) eqn:Hc'; [|exact IH2].
      rewrite IH1. apply Ascii.eqb_eq in Hc' as ->.
      change (str_exists f (String (ascii_of_nat 10) s))
        with (f (ascii_of_nat 10) || str_exists f s).
      by rewrite (Hlb (ascii_of_nat 10)).
    + rewrite (splitlines_cons _ _ Hc).
      change (str_exists f (String c (String c' s)))
        with (f c || str_exists f (String c' s)).
      rewrite <-IH2. destruct (splitlines (String c' s)) as [|l ls]; simpl.
      * by rewrite !orb_false_r.
      * by rewrite orb_assoc.
Qed.

Lemma splitlines_forall g s :
  str_forall g s = true →
  forallb (str_forall (λ c, g c && negb (is_linebreak c))) (splitlines s) = true.
Proof.
  induction s as [|c|c c' s IH1 IH2] using string_induction2; [done| |].
  - simpl. rewrite andb_true_r. intros Hc.
    destruct (is_linebreak c) eqn:Hlb; [by destruct (Ascii.eqb c (ascii_of_nat 13))|].
    simpl. by rewrite Hc, Hlb.
  - change (str_forall g (String c (String c' s)))
      with (g c && str_forall g (String c' s)).
    intros [Hc Hs]%andb_true_iff. specialize (IH2 Hs).
    destruct (is_linebreak c) eqn:Hlb.
    + change (splitlines (String c (String c' s)))
        with (if is_linebreak c then
                "" :: (if Ascii.eqb c (ascii_of_nat 13) then
                         if Ascii.eqb c' (ascii_of_nat 10) then splitlines s
                         else splitlines (String c' s)
                       else splitlines (String c' s))
              else match splitlines (String c' s) with
                   | [] => [String c ""]
                   | l :: ls => String c l :: ls
                   end).
      rewrite Hlb. simpl forallb.
      destruct (Ascii.eqb c (ascii_of_nat 13)); [|exact IH2].
      destruct (Ascii.eqb c' (ascii_of_nat 10)); [|exact IH2].
      apply IH1. simpl in Hs. by apply andb_true_iff in Hs as [_ ?].
    + rewrite (splitlines_cons _ _ Hlb).
      destruct (splitlines (String c' s)) as [|l ls]; simpl.
      * by rewrite Hc, Hlb.
      * simpl in IH2. apply andb_true_iff in IH2 as [Hl Hls].
        by rewrite Hc, Hlb, Hl, Hls.
Qed.

Lemma split_commas_exists f s :
  (∀ c, f c = true → Ascii.eqb c "," = false) →
  existsb (str_exists f) (split_commas s) = str_exists f s.
Proof.
  intros Hf. induction s as [|c s IH]; [done|]. simpl.
  destruct (Ascii.eqb c ",") eqn:Hc.
  - simpl. rewrite IH. destruct (f c) eqn:Hfc; [|done]. apply Hf in Hfc. congruence.
  - rewrite <-IH. destruct (split_commas s) as [|l ls]; simpl.
    + by rewrite !orb_false_r.
    + by rewrite orb_assoc.
Qed.

Lemma split_commas_forall g s :
  str_forall g s = true →
  forallb (str_forall (λ c, g c && negb (Ascii.eqb c ","))) (split_commas s) = true.
Proof.
  induction s as [|c s IH]; [done|]. simpl.
  intros [Hc Hs]%andb_true_iff. specialize (IH Hs).
  destruct (Ascii.eqb c ",") eqn:Hcomma; [done|].
  destruct (split_commas s) as [|l ls]; simpl.
  - by rewrite Hc, Hcomma.
  - simpl in IH. apply andb_true_iff in IH as [Hl Hls]. by rewrite Hc, Hcomma, Hl, Hls.
Qed.

Lemma elem_of_urls_of u s :
  u ∈ urls_of s ↔
  ∃ line piece, line ∈ splitlines s ∧ piece ∈ split_commas line
                ∧ u = strip piece ∧ u ≠ "".
Proof.
  unfold urls_of. rewrite list_elem_of_bind. split.
  - intros (line & Hu & Hline). apply list_elem_of_filter in Hu as [Hne Hu].
    apply list_elem_of_fmap in Hu as (piece & -> & Hpiece).
    exists line, piece. repeat split; try done. by intros Heq; rewrite Heq in Hne.
  - intros (line & piece & Hline & Hpiece & -> & Hne). exists line. split; [|done].
    apply list_elem_of_filter. split; [by destruct (strip piece)|].
    by apply list_elem_of_fmap_2.
Qed.

Lemma url_char_not_space c : url_char c = true → isspace c = false.
Proof. unfold url_char. intros [H _]%andb_true_iff. by apply negb_true_iff. Qed.

Lemma url_char_not_comma c : url_char c = true → Ascii.eqb c "," = false.
Proof. unfold url_char. intros [_ H]%andb_true_iff. by apply negb_true_iff. Qed.

(** X11: every URL given to the worker is non-empty, has no whitespace at
    its ends, and contains neither a comma nor a line break. *)
Theorem urls_are_clean url_text u :
  u ∈ urls_of url_text →
  u ≠ "" ∧ strip u = u
  ∧ str_forall (λ c, negb (Ascii.eqb c ",") && negb (is_linebreak c)) u = true.
Proof.
  intros (line & piece & Hline & Hpiece & -> & Hne)%elem_of_urls_of.
  split; [done|]. split; [apply strip_idempotent|].
  pose proof (splitlines_forall (λ _, true) url_text) as Hlines.
  rewrite forallb_forall in Hlines.
  assert (str_forall (λ _, true) url_text = true) as Htrue
    by (clear; induction url_text; [done|by simpl]).
  specialize (Hlines Htrue line). rewrite <-list_elem_of_In in Hlines.
  specialize (Hlines Hline).
  pose proof (split_commas_forall _ line Hlines) as Hpieces.
  rewrite forallb_forall in Hpieces. specialize (Hpieces piece).
  rewrite <-list_elem_of_In in Hpieces. specialize (Hpieces Hpiece).
  apply strip_forall. eapply str_forall_impl; [|exact Hpieces].
  intros c. simpl. intros [Hlb Hcomma]%andb_true_iff. by rewrite Hlb, Hcomma.
Qed.

Lemma urls_of_nonempty s : urls_of s ≠ [] ↔ str_exists url_char s = true.
Proof.
  split.
  - intros Hne. destruct (urls_of s) as [|u us] eqn:Hu; [done|].
    assert (u ∈ urls_of s) as Hin by (rewrite Hu; left).
    apply elem_of_urls_of in Hin as (line & piece & Hline & Hpiece & -> & Hu').
    rewrite <-(splitlines_exists url_char s url_char_not_space).
    apply existsb_exists. exists line. rewrite <-list_elem_of_In. split; [done|].
    rewrite <-(split_commas_exists url_char line url_char_not_comma).
    apply existsb_exists. exists piece. rewrite <-list_elem_of_In. split; [done|].
    rewrite <-(strip_exists url_char piece url_char_not_space).
    destruct (strip_head piece) as [Heq|(c & r & Heq & Hc)]; [done|].
    pose proof (split_commas_forall (λ _, true) line) as Hpieces.
    rewrite forallb_forall in Hpieces.
    assert (str_forall (λ _, true) line = true) as Htrue
      by (clear; induction line; [done|by simpl]).
    specialize (Hpieces Htrue piece). rewrite <-list_elem_of_In in Hpieces.
    specialize (Hpieces Hpiece). apply (strip_forall _ piece) in Hpieces.
    rewrite Heq in Hpieces |- *. simpl in Hpieces |- *.
    apply andb_true_iff in Hpieces as [Hcomma _]. unfold url_char.
    by rewrite Hc, Hcomma.
  - intros Hex.
    rewrite <-(splitlines_exists url_char s url_char_not_space) in Hex.
    apply existsb_exists in Hex as (line & Hline & Hex).
    rewrite <-list_elem_of_In in Hline.
    rewrite <-(split_commas_exists url_char line url_char_not_comma) in Hex.
    apply existsb_exists in Hex as (piece & Hpiece & Hex).
    rewrite <-list_elem_of_In in Hpiece.
    rewrite <-(strip_exists url_char piece url_char_not_space) in Hex.
    assert (strip piece ∈ urls_of s) as Hin.
    { apply elem_of_urls_of. exists line, piece. repeat split; try done.
      by eapply str_exists_nonempty. }
    intros Heq. rewrite Heq in Hin. by apply elem_of_nil in Hin.
Qed.

(** X12: the first warning is shown exactly when the input has only
    whitespace; the worker is started exactly when the input has a
    character that is neither whitespace nor a comma, with the URLs of the
    stripped input; otherwise (only whitespace and commas, with a comma)
    the second warning is shown. *)
Theorem start_scraping_thread_decision input :
  (start_scraping_thread input = InputRequired ↔ all_space input = true)
  ∧ (start_scraping_thread input = NoValidUrls ↔
     all_space input = false ∧ str_exists url_char input = false)
  ∧ (∀ urls, start_scraping_thread input = Started urls ↔
       str_exists url_char input = true ∧ urls = urls_of (strip input)).
Proof.
  unfold start_scraping_thread.
  pose proof (strip_blank input) as Hblank.
  pose proof (urls_of_nonempty (strip input)) as Hurls.
  rewrite (strip_exists url_char input url_char_not_space) in Hurls.
  assert (all_space input = true → str_exists url_char input = false) as Hsp.
  { clear. induction input as [|c s IH]; [done|]. simpl.
    intros [Hc Hs]%andb_true_iff. rewrite (IH Hs). unfold url_char. by rewrite Hc. }
  destruct (strip input) as [|c r] eqn:Hstrip.
  - assert (all_space input = true) as Hall by (by apply Hblank).
    specialize (Hsp Hall). simpl nonempty. cbv iota.
    split; [by split|].
    split; [split; [done|intros [? _]; congruence]|].
    intros urls. split; [done|intros [? _]; congruence].
  - assert (all_space input ≠ true) as Hall by (intros H; by apply Hblank in H).
    simpl nonempty. cbv iota. destruct (urls_of (String c r)) as [|u us] eqn:Hu.
    + assert (str_exists url_char input ≠ true) as Hno by (intros H; by apply Hurls in H).
      split; [split; [done|by intros ?]|].
      split.
      * split; [intros _|done].
        split; [by destruct (all_space input)|by destruct (str_exists url_char input)].
      * intros urls. split; [done|by intros [? _]].
    + assert (str_exists url_char input = true) as Hyes by (by apply Hurls).
      split; [split; [done|by intros ?]|].
      split; [split; [done|intros [_ ?]; congruence]|].
      intros urls. split; [by intros [= <-]|by intros [_ ->]].
Qed.

(** * More on [scrape_dynamic_content] *)

Lemma clean_text_again s : clean_text (clean_text s) = clean_text s.
Proof.
  unfold clean_text at 1.
  assert (clean_text s = join " " (split s)) as H by (apply strip_join, split_words).
  rewrite H at 1. rewrite split_join by apply split_words.
  by rewrite strip_join by apply split_words.
Qed.

Lemma filter_none {A} (P : A → Prop) `{∀ x, Decision (P x)} (l : list A) :
  Forall (λ x, ¬ P x) l → filter P l = [].
Proof.
  induction 1 as [|x l Hx Hl IH]; [done|]. by rewrite filter_cons_False.
Qed.

Lemma filter_all {A} (P : A → Prop) `{∀ x, Decision (P x)} (l : list A) :
  Forall P l → filter P l = l.
Proof.
  induction 1 as [|x l Hx Hl IH]; [done|]. rewrite filter_cons_True by done.
  by rewrite IH.
Qed.

Section ScrapeFacts.

Variable urljoin : string → string → option string.
Variable raises : node → option string.
Variable text_raises : node → option string.
Variable base_url : string.

#[local] Abbreviation classify := (classify urljoin raises base_url).
#[local] Abbreviation step := (step urljoin raises base_url).
#[local] Abbreviation first_pass := (first_pass urljoin raises base_url).
#[local] Abbreviation classified := (classified urljoin raises base_url).
#[local] Abbreviation resolve := (resolve urljoin base_url).
#[local] Abbreviation recover := (recover text_raises).
#[local] Abbreviation finished := (finished urljoin raises text_raises base_url).
#[local] Abbreviation scrape_dynamic_content :=
  (scrape_dynamic_content urljoin raises text_raises base_url).

(** What [classify] returns, field by field. *)
Lemma classify_record e r w :
  classify e = Returned (Some r) w →
  (is_heading (name e) = true ∧ rtype r = "heading_" +:+ name e
   ∨ is_heading (name e) = false
     ∧ (name e, rtype r) ∈ [("p", "paragraph"); ("li", "list_item"); ("a", "link");
                            ("img", "image"); ("th", "table_header");
                            ("td", "table_data")])
  ∧ (∀ s, rdata r = DText s → s = clean_text (get_text e) ∧ s ≠ "")
  ∧ Forall (λ m, is_loop_message m = true) w.
Proof.
  unfold classify. destruct (raises e); [done|].
  destruct (is_heading (name e)) eqn:Hh.
  { intros [= Hr <-]. apply text_record_spec in Hr as (Ht & Hd & Hne).
    split; [by left|]. split; [|done]. intros s. rewrite Hd. by intros [= <-]. }
  repeat case_bool_decide.
  all: try (intros [= Hr <-]; apply text_record_spec in Hr as (Ht & Hd & Hne);
            split; [right; split; [done|]; rewrite Ht;
                    match goal with H : name _ = _ |- _ => rewrite H end; set_solver|];
            split; [|done]; intros s; rewrite Hd; by intros [= <-]).
  - destruct (get e "href") as [h|]; [|done]. destruct (nonempty h); [|done].
    unfold resolve. destruct (urljoin base_url h); intros [= <- <-];
      (split; [right; split; [done|]; simpl;
               match goal with H : name _ = _ |- _ => rewrite H end; set_solver|]);
      (split; [done|]); by repeat constructor.
  - destruct (oor _ _) as [h|]; [|done]. destruct (nonempty h); [|done].
    unfold resolve. destruct (urljoin base_url h); intros [= <- <-];
      (split; [right; split; [done|]; simpl;
               match goal with H : name _ = _ |- _ => rewrite H end; set_solver|]);
      (split; [done|]); by repeat constructor.
  - done.
Qed.

Lemma heading_of_primary tag_name :
  tag_name ∈ PRIMARY_TAGS → is_heading tag_name = true →
  "heading_" +:+ tag_name
  ∈ ["heading_h1"; "heading_h2"; "heading_h3"; "heading_h4"; "heading_h5"; "heading_h6"].
Proof.
  unfold PRIMARY_TAGS. intros H Hh.
  repeat (apply elem_of_cons in H as [->|H]; [first [discriminate Hh|set_solver]|]).
  by apply elem_of_nil in H.
Qed.

Lemma emitter_facts soup (Es : list (node * record)) x :
  (fst <$> Es) `sublist_of` find_all PRIMARY_TAGS (container_of soup) →
  Forall (λ x, ∃ w, classify x.1 = Returned (Some x.2) w) Es →
  x ∈ Es →
  name x.1 ∈ PRIMARY_TAGS ∧ ∃ w, classify x.1 = Returned (Some x.2) w.
Proof.
  intros Hsub Hcls Hx. rewrite Forall_forall in Hcls. split; [|by apply Hcls].
  assert (x.1 ∈ find_all PRIMARY_TAGS (container_of soup)) as Hin
    by (eapply elem_of_sublist; [|exact Hsub]; by apply list_elem_of_fmap_2).
  apply elem_of_find_all in Hin. tauto.
Qed.

(** X13: every record of the output has one of the thirteen types:
    [heading_h1] to [heading_h6], [paragraph], [list_item], [link],
    [image], [table_header], [table_data], [text_chunk]. *)
Theorem record_types_are_known soup r :
  r ∈ scrape_dynamic_content soup → rtype r ∈ RECORD_TYPES.
Proof.
  unfold scrape_dynamic_content, scraped_data.
  destruct (run_summary urljoin raises text_raises base_url soup)
    as (Es & E2 & _ & -> & Hsub & Hcls & _ & _ & Hchunks).
  intros (x & -> & [Hx|Hx]%elem_of_app)%list_elem_of_fmap.
  - apply list_elem_of_fmap in Hx as (y & -> & Hy).
    destruct (emitter_facts soup Es y Hsub Hcls Hy) as (Hname & w & Hw).
    apply classify_record in Hw as ([[Hh Ht]|[Hh Hin]] & _); simpl.
    + rewrite Ht. pose proof (heading_of_primary _ Hname Hh). unfold RECORD_TYPES.
      set_solver.
    + unfold RECORD_TYPES.
      repeat (apply elem_of_cons in Hin as [[= _ ->]|Hin]; [set_solver|]).
      by apply elem_of_nil in Hin.
  - destruct (Hchunks x Hx) as (p & t & _ & -> & _). simpl. unfold RECORD_TYPES.
    set_solver.
Qed.

(** X14: a record that carries a plain text (headings, paragraphs, list
    items, table cells and text chunks) carries a non-empty text that is
    already clean: cleaning it again gives the same text. *)
Theorem text_records_are_clean soup r s :
  r ∈ scrape_dynamic_content soup → rdata r = DText s →
  s ≠ "" ∧ clean_text s = s.
Proof.
  unfold scrape_dynamic_content, scraped_data.
  destruct (run_summary urljoin raises text_raises base_url soup)
    as (Es & E2 & _ & -> & Hsub & Hcls & _ & _ & Hchunks).
  intros (x & -> & [Hx|Hx]%elem_of_app)%list_elem_of_fmap.
  - apply list_elem_of_fmap in Hx as (y & -> & Hy).
    destruct (emitter_facts soup Es y Hsub Hcls Hy) as (_ & w & Hw).
    apply classify_record in Hw as (_ & Hd & _). simpl. intros Hs.
    destruct (Hd s Hs) as [-> Hne]. split; [done|apply clean_text_again].
  - destruct (Hchunks x Hx) as (p & t & _ & -> & Ho). simpl. intros [= <-].
    split; [apply Ho|apply clean_text_again].
Qed.

(** X15: a [text_chunk] of the output is the cleaned, non-empty text of a
    string of the container whose parent is not consumed by the first pass,
    is not a primary tag and is not one of [script], [style], [noscript],
    [meta], [link], [title], [head], [html], [body]: text directly inside
    [body] is never output. *)
Theorem text_chunks_are_orphans soup x :
  x ∈ emitted (finished soup) → rtype x.2 = "text_chunk" →
  ∃ p t, (p, t) ∈ find_all_strings (container_of soup)
         ∧ x = (ident t, text_chunk t)
         ∧ orphan (processed_elements (classified soup)) p t.
Proof.
  destruct (run_summary urljoin raises text_raises base_url soup)
    as (Es & E2 & _ & -> & Hsub & Hcls & _ & _ & Hchunks).
  intros [Hx|Hx]%elem_of_app Hty; [|by apply Hchunks].
  apply list_elem_of_fmap in Hx as (y & -> & Hy).
  destruct (emitter_facts soup Es y Hsub Hcls Hy) as (_ & w & Hw).
  apply (classify_kind urljoin raises base_url), classified_kind_not_chunk in Hw.
  done.
Qed.

Lemma step_counts st e :
  (processed_count (step st e) + length (emitted st)
   = processed_count st + length (emitted (step st e)))%nat
  ∧ additional_text_count (step st e) = additional_text_count st
  ∧ ∃ L, log (step st e) = log st ++ L ∧ Forall (λ m, is_loop_message m = true) L.
Proof.
  destruct (step_cases urljoin raises base_url st e)
    as [[_ ->]|[_ [(err & _ & ->)|[(w & Hw & ->)|(r & w & Hw & ->)]]]]; simpl.
  - split; [done|]. split; [done|]. exists []. by rewrite app_nil_r.
  - split; [done|]. split; [done|]. eexists. split; [done|]. by repeat constructor.
  - split; [done|]. split; [done|]. exists w. split; [done|].
    revert Hw. unfold classify. destruct (raises e); [done|].
    destruct (is_heading (name e)); [intros ?; by simplify_eq|].
    repeat case_bool_decide; try (intros ?; by simplify_eq).
    + destruct (get e "href") as [h|]; [|intros ?; by simplify_eq].
      destruct (nonempty h); [|intros ?; by simplify_eq].
      by destruct (resolve WarnHref h).
    + destruct (oor _ _) as [h|]; [|intros ?; by simplify_eq].
      destruct (nonempty h); [|intros ?; by simplify_eq].
      by destruct (resolve WarnSrc h).
  - rewrite length_app. simpl. split; [lia|]. split; [done|]. exists w. split; [done|].
    by apply classify_record in Hw as (_ & _ & ?).
Qed.

Lemma first_pass_counts l st :
  (processed_count (first_pass l st) + length (emitted st)
   = processed_count st + length (emitted (first_pass l st)))%nat
  ∧ additional_text_count (first_pass l st) = additional_text_count st
  ∧ ∃ L, log (first_pass l st) = log st ++ L ∧ Forall (λ m, is_loop_message m = true) L.
Proof.
  revert st. induction l as [|e l IH]; intros st.
  { simpl. split; [done|]. split; [done|]. exists []. by rewrite app_nil_r. }
  change (first_pass (e :: l) st) with (first_pass l (step st e)).
  destruct (IH (step st e)) as (H1 & H2 & L2 & H3 & H4).
  destruct (step_counts st e) as (G1 & G2 & L1 & G3 & G4).
  split; [lia|]. split; [congruence|]. exists (L1 ++ L2).
  rewrite H3, G3, app_assoc. split; [done|]. by apply Forall_app.
Qed.

Lemma recover_counts l st :
  (additional_text_count (recover l st) + length (emitted st)
   = additional_text_count st + length (emitted (recover l st)))%nat
  ∧ processed_count (recover l st) = processed_count st
  ∧ ∃ L, log (recover l st) = log st ++ L ∧ (L = [] ∨ ∃ err, L = [ErrTextSearch err]).
Proof.
  revert st. induction l as [|[p t] l IH]; intros st.
  { simpl. split; [done|]. split; [done|]. exists []. rewrite app_nil_r. auto. }
  simpl. case_bool_decide; [apply IH|].
  destruct (text_raises t) as [err|].
  { simpl. split; [done|]. split; [done|]. eauto. }
  case_bool_decide; [exact (IH (mark (ident t) st))|].
  destruct (nonempty (clean_text (text t)) && _ && _);
    [|exact (IH (mark (ident t) st))].
  destruct (IH (mark (ident t) (emit_chunk t (clean_text (text t)) st)))
    as (H1 & H2 & H3).
  simpl in H1, H2, H3. rewrite length_app in H1. simpl in H1.
  split; [lia|]. split; [done|]. done.
Qed.

Lemma classified_summary soup :
  processed_count (classified soup) = length (emitted (classified soup))
  ∧ additional_text_count (classified soup) = 0
  ∧ Forall (λ x, rtype x.2 ≠ "text_chunk") (emitted (classified soup))
  ∧ MsgProcessed (length (emitted (classified soup))) ∈ log (classified soup).
Proof.
  unfold classified. simpl.
  set (els := find_all PRIMARY_TAGS (container_of soup)).
  set (S0 := log_message [MsgFound (length els)] (start soup)).
  destruct (first_pass_trace urljoin raises base_url els S0) as (E1 & Hem1 & _ & Hall1).
  destruct (first_pass_counts els S0) as (Hcount & Hadd1 & _).
  assert (emitted S0 = []) as Hnil by reflexivity.
  assert (processed_count S0 = 0) as Hzero by reflexivity.
  assert (additional_text_count S0 = 0) as Hzero' by reflexivity.
  rewrite Hnil in Hem1, Hcount. rewrite Hzero in Hcount. rewrite Hzero' in Hadd1.
  simpl in Hem1, Hcount. rewrite Hem1 in *.
  assert (processed_count (first_pass els S0) = length E1) as -> by lia.
  repeat split; try done.
  - eapply Forall_impl; [exact Hall1|]. intros x. apply classified_kind_not_chunk.
  - set_solver.
Qed.

(** X16: the last message of a run gives the number of records of the
    output and the number of its [text_chunk] records, and the message
    after the first loop gives the number of the other records. *)
Theorem summary_counts_are_right soup :
  ∃ before,
    log (finished soup) =
      before ++ [MsgDone (length (scrape_dynamic_content soup))
                   (length (filter (λ r, rtype r = "text_chunk")
                              (scrape_dynamic_content soup)))]
    ∧ MsgProcessed (length (filter (λ r, rtype r ≠ "text_chunk")
                              (scrape_dynamic_content soup)))
      ∈ before.
Proof.
  unfold scrape_dynamic_content, scraped_data, finished.
  set (S1 := log_message [MsgSearching] (classified soup)).
  set (strs := find_all_strings (container_of soup)).
  destruct (classified_summary soup) as (Hpc & Hadd0 & Hall1 & Hmsg).
  destruct (recover_trace text_raises strs S1) as (E2 & Hem2 & _ & Hall2).
  destruct (recover_counts strs S1) as (Hadd & _ & L2 & Hlog2 & _).
  change (emitted S1) with (emitted (classified soup)) in Hem2, Hadd.
  change (additional_text_count S1) with (additional_text_count (classified soup)) in Hadd.
  change (log S1) with (log (classified soup) ++ [MsgSearching]) in Hlog2.
  set (E1 := emitted (classified soup)) in *.
  remember (recover strs S1) as S2 eqn:HS2. simpl.
  rewrite Hem2 in Hadd |- *. rewrite Hadd0 in Hadd.
  assert (filter (λ r : record, rtype r = "text_chunk") (snd <$> E1) = []) as Hf1.
  { apply filter_none. by apply Forall_fmap. }
  assert (filter (λ r : record, rtype r = "text_chunk") (snd <$> E2) = snd <$> E2) as Hf2
    by (apply filter_all; by apply Forall_fmap).
  assert (filter (λ r : record, rtype r ≠ "text_chunk") (snd <$> E1) = snd <$> E1) as Hg1
    by (apply filter_all; by apply Forall_fmap).
  assert (filter (λ r : record, rtype r ≠ "text_chunk") (snd <$> E2) = []) as Hg2.
  { apply filter_none. apply Forall_fmap. eapply Forall_impl; [exact Hall2|].
    intros x Hx. simpl. by intros ?. }
  rewrite !fmap_app, !filter_app, Hf1, Hf2, Hg1, Hg2, app_nil_r. simpl.
  rewrite !length_fmap, !length_app. rewrite !length_app in Hadd.
  replace (additional_text_count S2) with (length E2) by lia.
  rewrite !length_fmap.
  eexists. split; [reflexivity|].
  rewrite Hlog2. set_solver.
Qed.


End ScrapeFacts.

Section WalkFacts.

Variable urljoin : string → string → option string.
Variable raises : node → option string.
Variable base_url : string.

#[local] Abbreviation first_pass := (first_pass urljoin raises base_url).

(** X18: the first loop only appends: going on with more elements keeps
    the records produced so far as a prefix of the output, keeps the
    messages logged so far as a prefix of the log, and keeps every identity
    of the consumed set. *)
Theorem walk_only_appends pre post st :
  emitted (first_pass pre st) `prefix_of` emitted (first_pass (pre ++ post) st)
  ∧ processed_elements (first_pass pre st)
    ⊆ processed_elements (first_pass (pre ++ post) st)
  ∧ log (first_pass pre st) `prefix_of` log (first_pass (pre ++ post) st).
Proof.
  rewrite (first_pass_app urljoin raises base_url).
  split; [apply first_pass_emitted|]. split; [|apply first_pass_log].
  destruct (first_pass_emitters urljoin raises base_url post (first_pass pre st))
    as (Es & _ & _ & _ & Hpr & _).
  intros i Hi. apply Hpr. by left.
Qed.

End WalkFacts.

(** ** The theorems on the sample documents *)

Section Examples.

#[local] Abbreviation run_finished :=
  (finished sample_urljoin never_raises never_raises "https://ex.com").
#[local] Abbreviation run_classified :=
  (classified sample_urljoin never_raises "https://ex.com").

Example end_to_end :
  scrape_dynamic_content sample_urljoin never_raises never_raises "https://ex.com" sample_doc
  = [ {| rtype := "heading_h1"; rdata := DText "Title" |};
      {| rtype := "paragraph"; rdata := DText "Intro link" |};
      {| rtype := "text_chunk"; rdata := DText "Stray text" |} ].
Proof. vm_compute. reflexivity. Qed.

Example whitespace_normalization : clean_text "  Hello
	world  " = "Hello world".
Proof. reflexivity. Qed.

(** Decidable facts about concrete documents, by evaluation. *)
Ltac by_evaluation :=
  match goal with |- ?P => apply (@bool_decide_unpack P _) end; vm_compute; exact I.
Ltac member_at k := apply (list_elem_of_lookup_2 _ k); vm_compute; reflexivity.



(** A comment inside a paragraph: [find_all(string=True)] finds it, its
    parent is consumed, and [get_text] leaves it out of the record of the
    paragraph, so that no record has its characters. *)
Example comment_in_paragraph_is_dropped :
  (commented_paragraph, inner_comment)
    ∈ find_all_strings (container_of commented_doc)
  ∧ clean_text (text inner_comment) ≠ ""
  ∧ (name commented_paragraph ∉ IGNORED_PARENTS)
  ∧ ident commented_paragraph ∈ processed_elements (run_classified commented_doc)
  ∧ scrape_dynamic_content sample_urljoin never_raises never_raises "https://ex.com"
      commented_doc
    = [ {| rtype := "paragraph"; rdata := DText "ab" |} ]
  ∧ ¬ represented_once (container_of commented_doc) inner_comment
        (emitted (run_finished commented_doc)).
Proof.
  split; [member_at 1|]. split; [by vm_compute|]. split; [by_evaluation|].
  split; [by_evaluation|]. split; [vm_compute; reflexivity|].
  intros (k & (x & Hk & Hr) & _).
  destruct Hr as [Hr|(_ & e & He & _ & _ & _ & (pre & post & Hocc))].
  - assert (emitted (run_finished commented_doc)
            = [(2, {| rtype := "paragraph"; rdata := DText "ab" |})]) as Hout
      by (vm_compute; reflexivity).
    rewrite Hout, Hr in Hk. destruct k as [|k]; [discriminate Hk|by destruct k].
  - assert (find_all PRIMARY_TAGS (container_of commented_doc) = [commented_paragraph])
      as Hf by (vm_compute; reflexivity).
    rewrite Hf in He. apply list_elem_of_singleton in He as ->.
    assert (get_text commented_paragraph = "ab") as Hg by (vm_compute; reflexivity).
    rewrite Hg in Hocc. change (text inner_comment) with "c" in Hocc.
    destruct pre as [|c1 [|c2 [|c3 pre]]]; cbv in Hocc; discriminate Hocc.
Qed.

(** C2 fails as stated: in [<p><b>x</b></p>] the [p] yields a record, and
    the string [x], a descendant of [p] that is not one of its children, is
    not in the consumed set after the iteration. *)
Lemma deep_string_is_not_consumed :
  classify sample_urljoin never_raises "https://ex.com" bold_paragraph
  = Returned (Some {| rtype := "paragraph"; rdata := DText "x" |}) []
  ∧ deep_text ∈ nodes bold_paragraph
  ∧ (ident deep_text ∉
       processed_elements
         (step sample_urljoin never_raises "https://ex.com" (initial []) bold_paragraph)).
Proof.
  split; [by vm_compute|]. split; [member_at 1|by_evaluation].
Qed.

(** C2 on the paragraph of the sample document. *)
Lemma record_consumes_tags_and_child_strings_witness :
  (ident paragraph ∉ processed_elements (initial []))
  ∧ classify sample_urljoin never_raises "https://ex.com" paragraph
    = Returned (Some {| rtype := "paragraph"; rdata := DText "Intro link" |}) []
  ∧ ∀ i, i ∈ processed_elements
               (step sample_urljoin never_raises "https://ex.com" (initial []) paragraph) ↔
         i ∈ processed_elements (initial []) ∨ i = ident paragraph
         ∨ i ∈ ident <$> find_all_tags paragraph
         ∨ i ∈ ident <$> find_child_strings paragraph.
Proof.
  assert (ident paragraph ∉ processed_elements (initial [])) as H1 by by_evaluation.
  assert (classify sample_urljoin never_raises "https://ex.com" paragraph
          = Returned (Some {| rtype := "paragraph"; rdata := DText "Intro link" |}) [])
    as H2 by (vm_compute; reflexivity).
  split; [exact H1|]. split; [exact H2|].
  exact (record_consumes_tags_and_child_strings sample_urljoin never_raises
           "https://ex.com" (initial []) paragraph _ _ H1 H2).
Defined.

(** C3 on the sample document: the paragraph and the link inside it. *)
Lemma no_record_from_descendants_witness :
  NoDup (ids (container_of sample_doc))
  ∧ paragraph ∈ find_all PRIMARY_TAGS (container_of sample_doc)
  ∧ (ident paragraph, {| rtype := "paragraph"; rdata := DText "Intro link" |})
      ∈ emitted (run_classified sample_doc)
  ∧ inner_link ∈ nodes paragraph
  ∧ ((ident inner_link,
      {| rtype := "link"; rdata := DLink "link" "https://ex.com/x" |})
      ∉ emitted (run_finished sample_doc)).
Proof.
  assert (NoDup (ids (container_of sample_doc))) as H1 by by_evaluation.
  assert (paragraph ∈ find_all PRIMARY_TAGS (container_of sample_doc)) as H2
    by member_at 1.
  assert ((ident paragraph, {| rtype := "paragraph"; rdata := DText "Intro link" |})
            ∈ emitted (run_classified sample_doc)) as H3 by member_at 1.
  assert (inner_link ∈ nodes paragraph) as H4 by member_at 1.
  repeat split; try assumption.
  exact (no_record_from_descendants sample_urljoin never_raises never_raises
           "https://ex.com" sample_doc paragraph _ inner_link _ H1 H2 H3 H4).
Defined.

(** C4 fails as stated: on the sample document the recovery pass adds the
    identity of the string [Stray text] to the consumed set. *)
Lemma recovery_adds_to_consumed_set :
  (ident stray_text ∉ processed_elements (run_classified sample_doc))
  ∧ ident stray_text ∈ processed_elements (run_finished sample_doc)
  ∧ processed_elements (run_finished sample_doc)
    ≠ processed_elements (run_classified sample_doc).
Proof.
  assert (ident stray_text ∉ processed_elements (run_classified sample_doc)) as H1
    by by_evaluation.
  assert (ident stray_text ∈ processed_elements (run_finished sample_doc)) as H2
    by by_evaluation.
  split; [done|]. split; [done|]. intros Heq. apply H1. by rewrite <-Heq.
Qed.

(** C4 on the sample document. *)
Lemma recovery_only_adds_visited_strings_witness :
  NoDup (ids (container_of sample_doc))
  ∧ ∃ visited rest,
      find_all_strings (container_of sample_doc) = visited ++ rest
      ∧ (∀ i, i ∈ processed_elements (run_finished sample_doc) ↔
              i ∈ processed_elements (run_classified sample_doc)
              ∨ i ∈ ident <$> (snd <$> visited))
      ∧ (rest = []
         ∨ ∃ p t post err, rest = (p, t) :: post ∧ never_raises t = Some err
                           ∧ ident t ∉ processed_elements (run_finished sample_doc))
      ∧ (∀ e, is_tag e = true →
              e = container_of sample_doc ∨ e ∈ nodes (container_of sample_doc) →
              (ident e ∈ processed_elements (run_finished sample_doc) ↔
               ident e ∈ processed_elements (run_classified sample_doc))).
Proof.
  assert (NoDup (ids (container_of sample_doc))) as H by by_evaluation.
  split; [exact H|].
  exact (recovery_only_adds_visited_strings sample_urljoin never_raises never_raises
           "https://ex.com" sample_doc H).
Defined.

(** C6 on [<a href="/y"></a>]. *)
Lemma link_text_fallback_chain_witness :
  name empty_link = "a" ∧ get empty_link "href" = Some "/y" ∧ "/y" ≠ ""
  ∧ never_raises empty_link = None
  ∧ (ident empty_link ∉ processed_elements (initial []))
  ∧ ∃ link_text,
      step sample_urljoin never_raises "https://ex.com" (initial []) empty_link =
        consume empty_link
          {| rtype := "link";
             rdata := DLink link_text
                        (resolve sample_urljoin "https://ex.com" WarnHref "/y").1 |}
          (log_message (resolve sample_urljoin "https://ex.com" WarnHref "/y").2
             (initial []))
      ∧ (clean_text (get_text empty_link) ≠ "" →
         link_text = clean_text (get_text empty_link))
      ∧ (clean_text (get_text empty_link) = "" →
         clean_text (default "" (get empty_link "title")) ≠ "" →
         link_text = clean_text (default "" (get empty_link "title")))
      ∧ (clean_text (get_text empty_link) = "" →
         clean_text (default "" (get empty_link "title")) = "" →
         link_text = (resolve sample_urljoin "https://ex.com" WarnHref "/y").1)
      ∧ (contents empty_link = [] → get empty_link "title" = None →
         link_text = (resolve sample_urljoin "https://ex.com" WarnHref "/y").1).
Proof.
  assert (get empty_link "href" = Some "/y") as H2 by (vm_compute; reflexivity).
  assert ("/y" ≠ "") as H3 by discriminate.
  assert (ident empty_link ∉ processed_elements (initial [])) as H5 by by_evaluation.
  split; [reflexivity|]. split; [exact H2|]. split; [exact H3|].
  split; [reflexivity|]. split; [exact H5|].
  exact (link_text_fallback_chain sample_urljoin never_raises "https://ex.com"
           (initial []) empty_link "/y" eq_refl H2 H3 eq_refl H5).
Defined.

(** C7 on a link whose [href] does not resolve. *)
Lemma resolution_failure_not_fatal_witness :
  never_raises bad_link = None
  ∧ (ident bad_link ∉ processed_elements (initial []))
  ∧ failing_urljoin "https://ex.com" "http://[x" = None
  ∧ "http://[x" ≠ ""
  ∧ ((name bad_link = "a" ∧ get bad_link "href" = Some "http://[x")
     ∨ (name bad_link = "img"
        ∧ oor (get bad_link "data-src") (get bad_link "src") = Some "http://[x"))
  ∧ ∃ r warning,
      url_of r = Some "http://[x"
      ∧ warning ∈ [WarnHref "http://[x" "https://ex.com"; WarnSrc "http://[x" "https://ex.com"]
      ∧ first_pass failing_urljoin never_raises "https://ex.com" (bad_link :: [heading])
          (initial [])
        = first_pass failing_urljoin never_raises "https://ex.com" [heading]
            (consume bad_link r (log_message [warning] (initial [])))
      ∧ warning ∈ log (first_pass failing_urljoin never_raises "https://ex.com"
                         (bad_link :: [heading]) (initial []))
      ∧ r ∈ scraped_data (first_pass failing_urljoin never_raises "https://ex.com"
                            (bad_link :: [heading]) (initial [])).
Proof.
  assert (ident bad_link ∉ processed_elements (initial [])) as H2 by by_evaluation.
  assert ("http://[x" ≠ "") as H4 by discriminate.
  assert ((name bad_link = "a" ∧ get bad_link "href" = Some "http://[x")
          ∨ (name bad_link = "img"
             ∧ oor (get bad_link "data-src") (get bad_link "src") = Some "http://[x"))
    as H5 by (left; split; [reflexivity|vm_compute; reflexivity]).
  split; [reflexivity|]. split; [exact H2|]. split; [reflexivity|].
  split; [exact H4|]. split; [exact H5|].
  exact (resolution_failure_not_fatal failing_urljoin never_raises "https://ex.com"
           (initial []) bad_link "http://[x" [heading] eq_refl H2 eq_refl H4 H5).
Defined.

(** C8 on three elements: the [try] block of the link raises. *)
Lemma element_error_skips_only_that_element_witness :
  never_raises inner_link = None
  ∧ raises_on 6 inner_link = Some "AttributeError"
  ∧ ends_alike
      (first_loop sample_urljoin (raises_on 6) "https://ex.com" never_raises
         ([heading] ++ inner_link :: [empty_link]) (initial []))
      (first_loop sample_urljoin (raises_on 6) "https://ex.com" never_raises
         ([heading] ++ [empty_link]) (initial []))
  ∧ (∀ st',
       first_loop sample_urljoin (raises_on 6) "https://ex.com" never_raises [heading]
         (initial []) = Returns st' →
       ident inner_link ∉ processed_elements st' →
       ErrElement (name inner_link) "AttributeError"
         ∈ log (state_of
                  (first_loop sample_urljoin (raises_on 6) "https://ex.com" never_raises
                     ([heading] ++ inner_link :: [empty_link]) (initial [])))).
Proof.
  split; [reflexivity|]. split; [reflexivity|].
  exact (element_error_skips_only_that_element sample_urljoin (raises_on 6)
           "https://ex.com" never_raises [heading] inner_link [empty_link]
           "AttributeError" (initial []) eq_refl eq_refl).
Defined.

(** C8 fails as stated: when [get_text], at line 116 and before the [try],
    raises for the heading of the sample document, the exception is neither
    caught nor logged as an error of the element; the loop ends there, the
    paragraph that follows yields no record, and the call returns nothing,
    whereas the loop without the heading returns with the record of the
    paragraph. *)
Lemma error_before_the_try_ends_the_call :
  raises_on 2 heading = Some "AttributeError"
  ∧ first_loop sample_urljoin never_raises "https://ex.com" (raises_on 2)
      ([] ++ heading :: [paragraph]) (initial [])
    = Propagates "AttributeError" (initial [])
  ∧ (∃ st, first_loop sample_urljoin never_raises "https://ex.com" (raises_on 2)
             ([] ++ [paragraph]) (initial []) = Returns st
           ∧ scraped_data st = [ {| rtype := "paragraph"; rdata := DText "Intro link" |} ])
  ∧ ¬ ends_alike
        (first_loop sample_urljoin never_raises "https://ex.com" (raises_on 2)
           ([] ++ heading :: [paragraph]) (initial []))
        (first_loop sample_urljoin never_raises "https://ex.com" (raises_on 2)
           ([] ++ [paragraph]) (initial []))
  ∧ (∃ st, scrape_dynamic_content_call sample_urljoin never_raises never_raises
             "https://ex.com" (raises_on 2) sample_doc
           = Propagates "AttributeError" st
           ∧ emitted st = []
           ∧ Forall (λ m, is_loop_message m = false) (log st)).
Proof.
  split; [reflexivity|]. split; [vm_compute; reflexivity|].
  split; [eexists; split; vm_compute; reflexivity|].
  split; [by vm_compute|].
  eexists. split; [vm_compute; reflexivity|]. split; [reflexivity|].
  by repeat constructor.
Qed.


(** C9 on two [div]s where the second string raises. *)
Lemma recovery_error_keeps_records_witness :
  find_all_strings (container_of two_divs_doc)
  = [(first_div, first_text)] ++ (second_div, second_text) :: []
  ∧ (∀ x, x ∈ [(first_div, first_text)] → raises_on 5 x.2 = None)
  ∧ raises_on 5 second_text = Some "AttributeError"
  ∧ (ident second_text ∉
       processed_elements
         (recover (raises_on 5) [(first_div, first_text)]
            (log_message [MsgSearching]
               (classified sample_urljoin never_raises "https://ex.com" two_divs_doc))))
  ∧ scrape_dynamic_content sample_urljoin never_raises (raises_on 5) "https://ex.com"
      two_divs_doc
    = scraped_data
        (recover (raises_on 5) [(first_div, first_text)]
           (log_message [MsgSearching]
              (classified sample_urljoin never_raises "https://ex.com" two_divs_doc)))
  ∧ scraped_data (classified sample_urljoin never_raises "https://ex.com" two_divs_doc)
      `prefix_of`
      scrape_dynamic_content sample_urljoin never_raises (raises_on 5) "https://ex.com"
        two_divs_doc
  ∧ ErrTextSearch "AttributeError"
      ∈ log (finished sample_urljoin never_raises (raises_on 5) "https://ex.com"
               two_divs_doc).
Proof.
  assert (find_all_strings (container_of two_divs_doc)
          = [(first_div, first_text)] ++ (second_div, second_text) :: []) as H1
    by (vm_compute; reflexivity).
  assert (∀ x, x ∈ [(first_div, first_text)] → raises_on 5 x.2 = None) as H2
    by (intros x ->%list_elem_of_singleton; reflexivity).
  assert (ident second_text ∉
            processed_elements
              (recover (raises_on 5) [(first_div, first_text)]
                 (log_message [MsgSearching]
                    (classified sample_urljoin never_raises "https://ex.com" two_divs_doc))))
    as H4 by by_evaluation.
  split; [exact H1|]. split; [exact H2|]. split; [reflexivity|]. split; [exact H4|].
  exact (recovery_error_keeps_records sample_urljoin never_raises (raises_on 5)
           "https://ex.com" two_divs_doc _ _ _ _ "AttributeError" H1 H2 eq_refl H4).
Defined.

Example recovery_error_keeps_first_chunk :
  scrape_dynamic_content sample_urljoin never_raises (raises_on 5) "https://ex.com"
    two_divs_doc
  = [ {| rtype := "text_chunk"; rdata := DText "First" |} ].
Proof. vm_compute. reflexivity. Qed.

(** C10 on an [img] with an empty [data-src] and [src="pic.png"]. *)
Lemma empty_data_src_falls_back_to_src_witness :
  lazy_image_attrs !! "data-src" = Some ""
  ∧ never_raises (Tag 1 "img" lazy_image_attrs []) = None
  ∧ never_raises (Tag 1 "img" (delete "data-src" lazy_image_attrs) []) = None
  ∧ classify sample_urljoin never_raises "https://ex.com/" (Tag 1 "img" lazy_image_attrs [])
    = classify sample_urljoin never_raises "https://ex.com/"
        (Tag 1 "img" (delete "data-src" lazy_image_attrs) [])
  ∧ (∀ src, lazy_image_attrs !! "src" = Some src → src ≠ "" →
       classify sample_urljoin never_raises "https://ex.com/"
         (Tag 1 "img" lazy_image_attrs []) =
         Returned (Some {| rtype := "image";
                           rdata := DImage
                                      (resolve sample_urljoin "https://ex.com/" WarnSrc src).1
                                      (clean_text (default "" (lazy_image_attrs !! "alt"))) |})
           (resolve sample_urljoin "https://ex.com/" WarnSrc src).2)
  ∧ (lazy_image_attrs !! "src" = None ∨ lazy_image_attrs !! "src" = Some "" →
       classify sample_urljoin never_raises "https://ex.com/"
         (Tag 1 "img" lazy_image_attrs []) = Returned None []).
Proof.
  assert (lazy_image_attrs !! "data-src" = Some "") as H1 by (vm_compute; reflexivity).
  split; [exact H1|]. split; [reflexivity|]. split; [reflexivity|].
  exact (empty_data_src_falls_back_to_src sample_urljoin never_raises "https://ex.com/"
           1 lazy_image_attrs [] H1 eq_refl eq_refl).
Defined.

Example lazy_image_record :
  classify sample_urljoin never_raises "https://ex.com/" (Tag 1 "img" lazy_image_attrs [])
  = Returned (Some {| rtype := "image"; rdata := DImage "https://ex.com/pic.png" "" |}) [].
Proof. vm_compute. reflexivity. Qed.

(** ** The rest of the script on the sample site *)

#[local] Abbreviation visit :=
  (process_single_url sample_urlparse sample_get sample_parse sample_to_csv
     sample_urljoin never_raises never_raises).

Example sample_site_file :
  (visit "ex.com/page").2
  = Some ("ex.com_page.csv",
          [ {| rtype := "heading_h1"; rdata := DText "Title" |};
            {| rtype := "paragraph"; rdata := DText "Intro link" |};
            {| rtype := "text_chunk"; rdata := DText "Stray text" |} ]).
Proof. vm_compute. reflexivity. Qed.

(** X7 on a server that times out on every URL without scheme. *)
Lemma fetch_page_requests_with_scheme_witness :
  (∀ u, startswith "http://" u || startswith "https://" u = true →
        sample_get u = strict_get u)
  ∧ fetch_page sample_get "ex.com/page" = fetch_page strict_get "ex.com/page".
Proof.
  assert (∀ u, startswith "http://" u || startswith "https://" u = true →
               sample_get u = strict_get u) as H
    by (intros u Hu; unfold strict_get; by rewrite Hu).
  split; [exact H|].
  exact (fetch_page_requests_with_scheme sample_get strict_get "ex.com/page" H).
Defined.

(** X9 on the sample site. *)
Lemma process_single_url_saved_witness :
  visit "ex.com/page"
  = ((visit "ex.com/page").1,
     Some ("ex.com_page.csv",
           scrape_dynamic_content sample_urljoin never_raises never_raises
             "https://ex.com/page" sample_doc))
  ∧ ∃ status_code html effective_url soup,
      sample_get (with_scheme "ex.com/page") = Response status_code html effective_url
      ∧ is_http_error status_code = false
      ∧ html ≠ ""
      ∧ sample_parse html = inr soup
      ∧ scrape_dynamic_content sample_urljoin never_raises never_raises
          "https://ex.com/page" sample_doc
        = scrape_dynamic_content sample_urljoin never_raises never_raises
            effective_url soup
      ∧ scrape_dynamic_content sample_urljoin never_raises never_raises
          "https://ex.com/page" sample_doc ≠ []
      ∧ "ex.com_page.csv" = generate_filename sample_urlparse effective_url
      ∧ sample_to_csv "ex.com_page.csv"
          (scrape_dynamic_content sample_urljoin never_raises never_raises
             "https://ex.com/page" sample_doc) = None
      ∧ str_forall safe_char "ex.com_page.csv" = true.
Proof.
  assert (visit "ex.com/page"
          = ((visit "ex.com/page").1,
             Some ("ex.com_page.csv",
                   scrape_dynamic_content sample_urljoin never_raises never_raises
                     "https://ex.com/page" sample_doc))) as H
    by (vm_compute; reflexivity).
  split; [exact H|].
  exact (process_single_url_saved sample_urlparse sample_get sample_parse sample_to_csv
           sample_urljoin never_raises never_raises "ex.com/page" _ _ _ H).
Defined.

(** X10 on a server that answers with an empty body. *)
Lemma process_single_url_empty_body_witness :
  empty_get (with_scheme "ex.com/page") = Response 200 "" "https://ex.com/page"
  ∧ (process_single_url sample_urlparse empty_get sample_parse sample_to_csv
       sample_urljoin never_raises never_raises "ex.com/page").2 = None
  ∧ MsgSkipping "ex.com/page"
    ∈ (process_single_url sample_urlparse empty_get sample_parse sample_to_csv
         sample_urljoin never_raises never_raises "ex.com/page").1
  ∧ ∀ parse_html' to_csv',
      process_single_url sample_urlparse empty_get parse_html' to_csv'
        sample_urljoin never_raises never_raises "ex.com/page"
      = process_single_url sample_urlparse empty_get sample_parse sample_to_csv
          sample_urljoin never_raises never_raises "ex.com/page".
Proof.
  assert (empty_get (with_scheme "ex.com/page") = Response 200 "" "https://ex.com/page")
    as H by (vm_compute; reflexivity).
  split; [exact H|].
  exact (process_single_url_empty_body sample_urlparse empty_get sample_parse
           sample_to_csv sample_urljoin never_raises never_raises "ex.com/page" _ _ H).
Defined.

(** X11 on two URLs of one line. *)
Lemma urls_are_clean_witness :
  "b.org/x" ∈ urls_of "a.com ,  b.org/x"
  ∧ "b.org/x" ≠ ""
  ∧ strip "b.org/x" = "b.org/x"
  ∧ str_forall (λ c, negb (c =? ",")%char && negb (is_linebreak c)) "b.org/x" = true.
Proof.
  assert ("b.org/x" ∈ urls_of "a.com ,  b.org/x") as H by member_at 1.
  split; [exact H|].
  exact (urls_are_clean "a.com ,  b.org/x" "b.org/x" H).
Defined.

(** X13 on the sample document: the record of the paragraph. *)
Lemma record_types_are_known_witness :
  {| rtype := "paragraph"; rdata := DText "Intro link" |}
    ∈ scrape_dynamic_content sample_urljoin never_raises never_raises "https://ex.com"
        sample_doc
  ∧ "paragraph" ∈ RECORD_TYPES.
Proof.
  assert ({| rtype := "paragraph"; rdata := DText "Intro link" |}
            ∈ scrape_dynamic_content sample_urljoin never_raises never_raises
                "https://ex.com" sample_doc) as H by member_at 1.
  split; [exact H|].
  exact (record_types_are_known sample_urljoin never_raises never_raises "https://ex.com"
           sample_doc _ H).
Defined.

(** X14 on the sample document: the record of the heading. *)
Lemma text_records_are_clean_witness :
  {| rtype := "heading_h1"; rdata := DText "Title" |}
    ∈ scrape_dynamic_content sample_urljoin never_raises never_raises "https://ex.com"
        sample_doc
  ∧ "Title" ≠ "" ∧ clean_text "Title" = "Title".
Proof.
  assert ({| rtype := "heading_h1"; rdata := DText "Title" |}
            ∈ scrape_dynamic_content sample_urljoin never_raises never_raises
                "https://ex.com" sample_doc) as H by member_at 0.
  split; [exact H|].
  exact (text_records_are_clean sample_urljoin never_raises never_raises "https://ex.com"
           sample_doc _ "Title" H eq_refl).
Defined.

(** X15 on the sample document: the text of the [div]. *)
Lemma text_chunks_are_orphans_witness :
  (ident stray_text, text_chunk stray_text) ∈ emitted (run_finished sample_doc)
  ∧ ∃ p t, (p, t) ∈ find_all_strings (container_of sample_doc)
           ∧ (ident stray_text, text_chunk stray_text) = (ident t, text_chunk t)
           ∧ orphan (processed_elements (run_classified sample_doc)) p t.
Proof.
  assert ((ident stray_text, text_chunk stray_text) ∈ emitted (run_finished sample_doc))
    as H by member_at 2.
  split; [exact H|].
  exact (text_chunks_are_orphans sample_urljoin never_raises never_raises "https://ex.com"
           sample_doc _ H eq_refl).
Defined.

End Examples.
